(** * The USCL lexer (src/lexer.py), embedded and verified

    The lexer is a Python class holding a source text, a cursor
    (position, line, column), the list of tokens produced so far and an
    indentation stack.  Every method mutates the object; here each method is
    a function from the object's state to its next state, and the one
    statement that can raise (the conversion of a numeric literal) makes
    the number reader end in a [completion]: it returns, or it raises.

    A Python [str] is a sequence of Unicode code points.  The predicates
    [str.isdigit], [str.isalpha], [str.isalnum] and the decimal value of a
    character come from the interpreter's Unicode database, and [int] has a
    limit that depends on the interpreter; neither is part of the
    repository: they are the operations of the class [Host] below, and the
    facts about them that proofs use are the class [HostLaws]. *)

From Stdlib Require Import List Bool Arith ZArith NArith Lia.
From Stdlib Require Import Ascii String.
From Stdlib Require Import SpecFloat.
Import ListNotations.

Set Implicit Arguments.

(** ** Characters and texts *)

(** A character is its code point. *)
Definition char : Type := N.

Definition chr (a : ascii) : char := N_of_ascii a.

(** A text written as a Rocq string literal, one code point per character
    (for literals below U+0100). *)
Definition str (s : string) : list char := map chr (list_ascii_of_string s).

Definition char_eqb (a b : char) : bool := N.eqb a b.

Fixpoint text_eqb (a b : list char) : bool :=
  match a, b with
  | [], [] => true
  | x :: a', y :: b' => char_eqb x y && text_eqb a' b'
  | _, _ => false
  end.

(** [c in text] for a one-character [c]. *)
Definition char_in (c : char) (text : list char) : bool :=
  existsb (char_eqb c) text.

(** [text[a:b]] for [0 <= a]: Python clamps both ends to the length. *)
Definition slice (text : list char) (a b : nat) : list char :=
  firstn (b - a) (skipn a text).

Definition NL : char := chr "010".
Definition TAB : char := chr "009".
Definition SPACE : char := chr " ".
Definition HASH : char := chr "#".
Definition BACKSLASH : char := chr "\".
Definition DQUOTE : char := chr "034".
Definition SQUOTE : char := chr "'".
Definition DOT_CHAR : char := chr ".".

(** ** What the interpreter supplies *)

Class Host : Type := {
  (** [str.isdigit], [str.isalpha] and [str.isalnum] on one character. *)
  isdigit : char -> bool;
  isalpha : char -> bool;
  isalnum : char -> bool;
  (** [unicodedata.decimal]: the value of a decimal digit (category Nd),
      nothing for every other character. *)
  decimal : char -> option Z;
  (** [sys.get_int_max_str_digits()]: the longest digit string [int] will
      convert, 0 for no limit (4300 by default since CPython 3.11, no limit
      before). *)
  int_max_str_digits : nat
}.

Definition ascii_isdigit (c : char) : bool :=
  (N.leb 48 c && N.leb c 57)%N.

Definition ascii_isalpha (c : char) : bool :=
  (N.leb 65 c && N.leb c 90)%N || (N.leb 97 c && N.leb c 122)%N.

(** What every Python interpreter guarantees about the database: on ASCII the
    classification is the familiar one, letters and digits are alphanumeric,
    and a decimal digit is a digit whose value is below ten. *)
Class HostLaws (U : Host) : Prop := {
  isdigit_ascii : forall c, (c < 128)%N -> isdigit c = ascii_isdigit c;
  isalpha_ascii : forall c, (c < 128)%N -> isalpha c = ascii_isalpha c;
  isalnum_ascii : forall c, (c < 128)%N ->
    isalnum c = ascii_isalpha c || ascii_isdigit c;
  decimal_ascii : forall c, (c < 128)%N ->
    decimal c = if ascii_isdigit c then Some (Z.of_N c - 48)%Z else None;
  isalpha_isalnum : forall c, isalpha c = true -> isalnum c = true;
  isdigit_isalnum : forall c, isdigit c = true -> isalnum c = true;
  decimal_isdigit : forall c d, decimal c = Some d ->
    isdigit c = true /\ (0 <= d <= 9)%Z
}.

(** ** Tokens *)

Inductive TokenType : Type :=
  (* Literals *)
  | INTEGER | FLOAT | STRING | SYMBOL | BOOLEAN
  (* Keywords *)
  | DEF | LET | IF | ELSE | LAMBDA | MATCH | QUANTUM | ASYNC | AWAIT
  | RETURN | IMPORT | MODULE
  (* Operators *)
  | PLUS | MINUS | STAR | SLASH | PERCENT | POW | EQ | NEQ | LT | GT | LE | GE
  | AND | OR | NOT | ASSIGN | ARROW | PIPE | DOT | COLON | SEMICOLON | COMMA
  (* Delimiters *)
  | LPAREN | RPAREN | LBRACKET | RBRACKET | LBRACE | RBRACE
  (* Special *)
  | IDENTIFIER | NEWLINE | INDENT | DEDENT | EOF | WHITESPACE | COMMENT.

(** The [value] field of a token is untyped in the source; these are the
    values the lexer stores there.  A float is an IEEE 754 binary64 number. *)
Inductive Value : Type :=
  | PyNone
  | PyInt (z : Z)
  | PyFloat (f : spec_float)
  | PyStr (s : list char).

Module Token.
Record t : Type := mk {
  type : TokenType;
  value : Value;
  line : Z;
  column : Z
}.
End Token.

(** ** The lexer object *)

(** What the lexer hands to the module's logger. *)
Inductive LogRecord : Type :=
  | DebugTokenizing (characters : nat)
  | DebugTokenized (count : nat)
  | WarningUnknownCharacter (c : char) (line column : Z).

Record Lexer : Type := mkLexer {
  source : list char;
  position : nat;
  line : Z;
  column : Z;
  tokens : list Token.t;
  indent_stack : list Z;
  (** not a field of the Python object: the records logged so far *)
  logged : list LogRecord
}.

(** [Lexer.__init__] *)
Definition init (src : list char) : Lexer :=
  mkLexer src 0 1%Z 1%Z [] [0%Z] [].

(** The assignments the methods are made of. *)
Definition position_add (n : nat) (l : Lexer) : Lexer :=
  mkLexer (source l) (position l + n) (line l) (column l) (tokens l)
          (indent_stack l) (logged l).

Definition column_add (n : Z) (l : Lexer) : Lexer :=
  mkLexer (source l) (position l) (line l) (column l + n)%Z (tokens l)
          (indent_stack l) (logged l).

Definition column_set (n : Z) (l : Lexer) : Lexer :=
  mkLexer (source l) (position l) (line l) n (tokens l)
          (indent_stack l) (logged l).

Definition line_add (n : Z) (l : Lexer) : Lexer :=
  mkLexer (source l) (position l) (line l + n)%Z (column l) (tokens l)
          (indent_stack l) (logged l).

Definition tokens_append (t : Token.t) (l : Lexer) : Lexer :=
  mkLexer (source l) (position l) (line l) (column l) (tokens l ++ [t])
          (indent_stack l) (logged l).

Definition logger_emit (r : LogRecord) (l : Lexer) : Lexer :=
  mkLexer (source l) (position l) (line l) (column l) (tokens l)
          (indent_stack l) (logged l ++ [r]).

(** [self.position += n; self.column += n] *)
Definition advance (n : nat) (l : Lexer) : Lexer :=
  column_add (Z.of_nat n) (position_add n l).

(** [self.source[self.position]] guarded by
    [self.position < len(self.source)]: nothing at or past the end. *)
Definition current (l : Lexer) : option char :=
  nth_error (source l) (position l).

(** [len(self.source) - self.position], the bound of every loop. *)
Definition remaining (l : Lexer) : nat :=
  List.length (source l) - position l.

(** [Lexer._add_token] *)
Definition _add_token (token_type : TokenType) (value : Value) (l : Lexer)
  : Lexer :=
  tokens_append (Token.mk token_type value (line l) (column l)) l.

(** [Lexer.KEYWORDS] *)
Definition KEYWORDS : list (list char * TokenType) :=
  [ (str "def", DEF); (str "let", LET); (str "if", IF); (str "else", ELSE);
    (str "lambda", LAMBDA); (str "match", MATCH); (str "quantum", QUANTUM);
    (str "async", ASYNC); (str "await", AWAIT); (str "return", RETURN);
    (str "import", IMPORT); (str "module", MODULE); (str "true", BOOLEAN);
    (str "false", BOOLEAN); (str "and", AND); (str "or", OR);
    (str "not", NOT) ].

(** [dict.get(key, default)] *)
Fixpoint dict_get (d : list (list char * TokenType)) (key : list char)
  (default : TokenType) : TokenType :=
  match d with
  | [] => default
  | (k, v) :: d' => if text_eqb k key then v else dict_get d' key default
  end.

(** ** Conversions of numeric literals *)

(** The decimal value of a run of decimal digits, most significant first;
    nothing as soon as a character has no decimal value. *)
Fixpoint decimal_value (acc : Z) (text : list char) {U : Host}
  : option Z :=
  match text with
  | [] => Some acc
  | c :: text' =>
      match decimal c with
      | Some d => decimal_value (10 * acc + d)%Z text'
      | None => None
      end
  end.

(** [int(text)] as the number reader calls it, on a text without sign, blank
    or underscore: the value when the text is a nonempty run of decimal
    digits no longer than the interpreter's limit, and [None] where Python
    raises ValueError. *)
Definition py_int {U : Host} (text : list char) : option Z :=
  match text with
  | [] => None
  | _ =>
      if (0 <? int_max_str_digits)
         && (int_max_str_digits <? List.length text)
      then None
      else decimal_value 0 text
  end.

(** The part of a text before its first dot, and the part after it if there
    is a dot. *)
Fixpoint split_dot (text : list char) : list char * option (list char) :=
  match text with
  | [] => ([], None)
  | c :: text' =>
      if char_eqb c DOT_CHAR then ([], Some text')
      else let '(a, b) := split_dot text' in (c :: a, b)
  end.

Definition float_of_Z (z : Z) : spec_float :=
  match z with
  | Z0 => S754_zero false
  | Zpos p => S754_finite false p 0
  | Zneg p => S754_finite true p 0
  end.

(** The binary64 number nearest to [m / 10^k] (ties to even): the rounding
    of Python's [float] on a decimal literal. *)
Definition nearest_binary64 (m : Z) (k : nat) : spec_float :=
  SFdiv 53 1024 (float_of_Z m) (float_of_Z (10 ^ Z.of_nat k)).

(** [float(text)] as the number reader calls it, on digits with at most one
    dot: [None] where Python raises ValueError. *)
Definition py_float {U : Host} (text : list char) : option spec_float :=
  let '(whole, rest) := split_dot text in
  let fraction := match rest with Some f => f | None => [] end in
  match whole ++ fraction with
  | [] => None
  | digits =>
      match decimal_value 0 digits with
      | Some m => Some (nearest_binary64 m (List.length fraction))
      | None => None
      end
  end.

(** ** The methods *)

Inductive Exception : Type :=
  | ValueError (literal : list char)
  | IndexError.

(** How a method ends: it returns, or an exception leaves it, in either case
    with the object in some state. *)
Inductive completion : Type :=
  | Normal (l : Lexer)
  | Raised (e : Exception) (l : Lexer).

Section Methods.
Context {U : Host}.

(** The inner loop of lines 200-201: skip to the end of the line,
    [self.position += 1] only. *)
Fixpoint skip_comment (fuel : nat) (l : Lexer) : Lexer :=
  match fuel with
  | O => l
  | S fuel' =>
      match current l with
      | Some c =>
          if negb (char_eqb c NL) then skip_comment fuel' (position_add 1 l)
          else l
      | None => l
      end
  end.

(** The loop of [_skip_whitespace_and_comments], lines 194-203. *)
Fixpoint skip_loop (fuel : nat) (l : Lexer) : Lexer :=
  match fuel with
  | O => l
  | S fuel' =>
      match current l with
      | Some c =>
          if char_in c [SPACE; TAB] then
            skip_loop fuel' (column_add 1 (position_add 1 l))
          else if char_eqb c HASH then
            skip_loop fuel' (skip_comment (remaining l) l)
          else l
      | None => l
      end
  end.

Definition _skip_whitespace_and_comments (l : Lexer) : Lexer :=
  skip_loop (remaining l) l.

(** [while self.position < len(self.source) and p(self.source[self.position]):
    self.position += 1; self.column += 1], the loop of lines 210-212,
    217-219 and 231-234. *)
Fixpoint advance_while (p : char -> bool) (fuel : nat) (l : Lexer)
  : Lexer :=
  match fuel with
  | O => l
  | S fuel' =>
      match current l with
      | Some c =>
          if p c then
            advance_while p fuel' (column_add 1 (position_add 1 l))
          else l
      | None => l
      end
  end.

Definition _read_number (l : Lexer) : completion :=
  let start_pos := position l in
  let l1 := advance_while isdigit (remaining l) l in
  let is_dot :=
    match current l1 with
    | Some c => char_eqb c DOT_CHAR
    | None => false
    end in
  if is_dot then
    let l2 := column_add 1 (position_add 1 l1) in
    let l3 := advance_while isdigit (remaining l2) l2 in
    let literal := slice (source l3) start_pos (position l3) in
    match py_float literal with
    | Some value => Normal (_add_token FLOAT (PyFloat value) l3)
    | None => Raised (ValueError literal) l3
    end
  else
    let literal := slice (source l1) start_pos (position l1) in
    match py_int literal with
    | Some value => Normal (_add_token INTEGER (PyInt value) l1)
    | None => Raised (ValueError literal) l1
    end.

Definition identifier_char (c : char) : bool :=
  isalnum c || char_in c (str "_?!").

Definition _read_identifier (l : Lexer) : Lexer :=
  let start_pos := position l in
  let l1 := advance_while identifier_char (remaining l) l in
  let value := slice (source l1) start_pos (position l1) in
  let token_type := dict_get KEYWORDS value IDENTIFIER in
  _add_token token_type (PyStr value) l1.

(** Lines 254-261: the character an escape stands for. *)
Definition escape (escape_char : char) : char :=
  if char_eqb escape_char (chr "n") then NL
  else if char_eqb escape_char (chr "t") then TAB
  else if char_eqb escape_char BACKSLASH then BACKSLASH
  else escape_char.

(** The loop of [_read_string], lines 248-266, threading the local
    [value]. *)
Fixpoint string_loop (quote : char) (fuel : nat) (value : list char)
  (l : Lexer) : list char * Lexer :=
  match fuel with
  | O => (value, l)
  | S fuel' =>
      match current l with
      | Some c =>
          if negb (char_eqb c quote) then
            let '(value1, l1) :=
              if char_eqb c BACKSLASH then
                let l' := column_add 1 (position_add 1 l) in
                match current l' with
                | Some escape_char => (value ++ [escape escape_char], l')
                | None => (value, l')
                end
              else (value ++ [c], l) in
            string_loop quote fuel' value1
                        (column_add 1 (position_add 1 l1))
          else (value, l)
      | None => (value, l)
      end
  end.

Definition _read_string (quote : char) (l : Lexer) : Lexer :=
  let l1 := column_add 1 (position_add 1 l) in
  let '(value, l2) := string_loop quote (remaining l1) [] l1 in
  let l3 :=
    match current l2 with
    | Some _ => column_add 1 (position_add 1 l2)
    | None => l2
    end in
  _add_token STRING (PyStr value) l3.

(** [self._add_token(token_type, text)] followed by
    [self.position += n; self.column += n], the three statements of every
    punctuation branch and of every two-character operator branch. *)
Definition add_then_advance (token_type : TokenType) (text : string)
  (n : nat) (l : Lexer) : Lexer :=
  advance n (_add_token token_type (PyStr (str text)) l).

(** Lines 278-314 of [_read_operator]: the state the method returns early
    with when a two-character operator is found, [None] when control falls
    through to the one-character part. *)
Definition two_char_operator (l : Lexer) : option Lexer :=
  if position l + 1 <? List.length (source l) then
    let two_char := slice (source l) (position l) (position l + 2) in
    if text_eqb two_char (str "==") then Some (add_then_advance EQ "==" 2 l)
    else if text_eqb two_char (str "!=") then
      Some (add_then_advance NEQ "!=" 2 l)
    else if text_eqb two_char (str "<=") then
      Some (add_then_advance LE "<=" 2 l)
    else if text_eqb two_char (str ">=") then
      Some (add_then_advance GE ">=" 2 l)
    else if text_eqb two_char (str "->") then
      Some (add_then_advance ARROW "->" 2 l)
    else if text_eqb two_char (str "**") then
      Some (add_then_advance POW "**" 2 l)
    else if text_eqb two_char (str "|>") then
      Some (add_then_advance PIPE "|>" 2 l)
    else None
  else None.

(** Lines 316-335 of [_read_operator]: the one-character operators and the
    warning for any other character. *)
Definition one_char_operator (char : char) (l : Lexer) : Lexer :=
  if char_eqb char (chr "+") then _add_token PLUS (PyStr (str "+")) l
  else if char_eqb char (chr "-") then _add_token MINUS (PyStr (str "-")) l
  else if char_eqb char (chr "*") then _add_token STAR (PyStr (str "*")) l
  else if char_eqb char (chr "/") then _add_token SLASH (PyStr (str "/")) l
  else if char_eqb char (chr "%") then
    _add_token PERCENT (PyStr (str "%")) l
  else if char_eqb char (chr "=") then _add_token ASSIGN (PyStr (str "=")) l
  else if char_eqb char (chr "<") then _add_token LT (PyStr (str "<")) l
  else if char_eqb char (chr ">") then _add_token GT (PyStr (str ">")) l
  else if char_eqb char (chr "|") then _add_token PIPE (PyStr (str "|")) l
  else logger_emit (WarningUnknownCharacter char (line l) (column l)) l.

Definition _read_operator (l : Lexer) : completion :=
  match current l with
  | None => Raised IndexError l
  | Some char =>
      match two_char_operator l with
      | Some l' => Normal l'
      | None =>
          Normal (column_add 1 (position_add 1 (one_char_operator char l)))
      end
  end.

(** Lines 134-186: the if/elif chain on the current character. *)
Definition dispatch (char : char) (l : Lexer) : completion :=
  if char_eqb char NL then
    let l1 := column_set 1 (line_add 1 (position_add 1 l)) in
    Normal
      (tokens_append
         (Token.mk NEWLINE (PyStr [NL]) (line l1 - 1) (column l1)) l1)
  else if isdigit char then _read_number l
  else if isalpha char || char_eqb char (chr "_") then
    Normal (_read_identifier l)
  else if char_eqb char DQUOTE || char_eqb char SQUOTE then
    Normal (_read_string char l)
  else if char_eqb char (chr ":") then Normal (add_then_advance COLON ":" 1 l)
  else if char_eqb char (chr ";") then
    Normal (add_then_advance SEMICOLON ";" 1 l)
  else if char_eqb char (chr ",") then Normal (add_then_advance COMMA "," 1 l)
  else if char_eqb char (chr ".") then Normal (add_then_advance DOT "." 1 l)
  else if char_eqb char (chr "(") then
    Normal (add_then_advance LPAREN "(" 1 l)
  else if char_eqb char (chr ")") then
    Normal (add_then_advance RPAREN ")" 1 l)
  else if char_eqb char (chr "[") then
    Normal (add_then_advance LBRACKET "[" 1 l)
  else if char_eqb char (chr "]") then
    Normal (add_then_advance RBRACKET "]" 1 l)
  else if char_eqb char (chr "{") then
    Normal (add_then_advance LBRACE "{" 1 l)
  else if char_eqb char (chr "}") then
    Normal (add_then_advance RBRACE "}" 1 l)
  else _read_operator l.

(** How one pass through the body of the main loop ends. *)
Inductive control : Type :=
  | Continue (l : Lexer)
  | Break (l : Lexer)
  | Raise (e : Exception) (l : Lexer).

(** Lines 128-186: the body of the main loop. *)
Definition iteration (l : Lexer) : control :=
  let l1 := _skip_whitespace_and_comments l in
  match current l1 with
  | None => Break l1
  | Some c =>
      match dispatch c l1 with
      | Normal l2 => Continue l2
      | Raised e l2 => Raise e l2
      end
  end.

(** Line 127: the main loop.  [None] is the bound of the embedding running
    out before the loop has ended; [tokenize_loop_fuel] shows that the
    bound [tokenize] passes is always enough. *)
Fixpoint tokenize_loop (fuel : nat) (l : Lexer) : option completion :=
  match current l with
  | None => Some (Normal l)
  | Some _ =>
      match fuel with
      | O => None
      | S fuel' =>
          match iteration l with
          | Continue l' => tokenize_loop fuel' l'
          | Break l' => Some (Normal l')
          | Raise e l' => Some (Raised e l')
          end
      end
  end.

(** [Lexer.tokenize]; the list it returns is [tokens] of the final
    state. *)
Definition tokenize (l : Lexer) : option completion :=
  let l0 := logger_emit (DebugTokenizing (List.length (source l))) l in
  match tokenize_loop (remaining l0) l0 with
  | Some (Normal l1) =>
      let l2 := _add_token EOF PyNone l1 in
      Some (Normal
              (logger_emit (DebugTokenized (List.length (tokens l2))) l2))
  | o => o
  end.

(** [Lexer(source).tokenize()] *)
Definition lex (src : list char) : option completion :=
  tokenize (init src).

(** The state the main loop is in when it tests its condition for the
    [n]-th time after the first, if the run gets that far. *)
Fixpoint loop_head (n : nat) (l : Lexer) : option Lexer :=
  match n with
  | O => Some l
  | S n' =>
      match current l with
      | None => None
      | Some _ =>
          match iteration l with
          | Continue l' => loop_head n' l'
          | _ => None
          end
      end
  end.

End Methods.

(** The value [tokenize] returns, when it returns. *)
Definition returned (o : option completion) : option (list Token.t) :=
  match o with
  | Some (Normal l) => Some (tokens l)
  | _ => None
  end.

(** ** CPython on U+0000..U+00FF

    The tables of CPython's Unicode database for the code points below
    U+0100, and its default limit on integer literals.  Code points from
    U+0100 on are left unclassified here: the instance serves inputs inside
    that range. *)

Definition latin1_isdigit (c : char) : bool :=
  ascii_isdigit c || char_in c [178; 179; 185]%N.

Definition latin1_isalpha (c : char) : bool :=
  ascii_isalpha c || char_in c [170; 181; 186]%N
  || (N.leb 192 c && N.leb c 214)%N || (N.leb 216 c && N.leb c 246)%N
  || (N.leb 248 c && N.leb c 255)%N.

Definition latin1_isnumeric (c : char) : bool :=
  latin1_isdigit c || char_in c [188; 189; 190]%N.

Definition latin1_isalnum (c : char) : bool :=
  latin1_isalpha c || latin1_isnumeric c.

Definition latin1_decimal (c : char) : option Z :=
  if ascii_isdigit c then Some (Z.of_N c - 48)%Z else None.

Definition latin1 : Host :=
  {| isdigit := latin1_isdigit;
     isalpha := latin1_isalpha;
     isalnum := latin1_isalnum;
     decimal := latin1_decimal;
     int_max_str_digits := 4300 |}.

(** ** Notions the statements use *)

(** [self.source[self.position:]], the text not consumed yet. *)
Definition rest (l : Lexer) : list char :=
  skipn (position l) (source l).

(** The specification's tables: the two-character operators, the
    one-character operators and the single-character punctuation, each with
    the kind of its token. *)
Definition two_char_operators : list (list char * TokenType) :=
  [ (str "==", EQ); (str "!=", NEQ); (str "<=", LE); (str ">=", GE);
    (str "->", ARROW); (str "**", POW); (str "|>", PIPE) ].

Definition one_char_operators : list (char * TokenType) :=
  [ (chr "+", PLUS); (chr "-", MINUS); (chr "*", STAR); (chr "/", SLASH);
    (chr "%", PERCENT); (chr "=", ASSIGN); (chr "<", LT); (chr ">", GT);
    (chr "|", PIPE) ].

Definition punctuation : list (char * TokenType) :=
  [ (chr ":", COLON); (chr ";", SEMICOLON); (chr ",", COMMA);
    (chr ".", DOT); (chr "(", LPAREN); (chr ")", RPAREN);
    (chr "[", LBRACKET); (chr "]", RBRACKET); (chr "{", LBRACE);
    (chr "}", RBRACE) ].

(** What the operator reader does to [l] when it starts at the character
    [c]: one of the two-character operators, one of the one-character
    operators, or the warning. *)
Definition operator_step (c : char) (l l' : Lexer) : Prop :=
  (exists op ty,
     In (op, ty) two_char_operators /\
     position l + 1 < List.length (source l) /\
     slice (source l) (position l) (position l + 2) = op /\
     l' = advance 2 (_add_token ty (PyStr op) l)) \/
  (exists ty,
     In (c, ty) one_char_operators /\
     l' = advance 1 (_add_token ty (PyStr [c]) l)) \/
  (~ In c (map fst one_char_operators) /\
   l' = advance 1
          (logger_emit (WarningUnknownCharacter c (line l) (column l)) l)).

(** The longest prefix of a text whose characters all satisfy [p]. *)
Fixpoint run (p : char -> bool) (text : list char) : list char :=
  match text with
  | c :: text' => if p c then c :: run p text' else []
  | [] => []
  end.

(** The kinds of token the scanning loop appends: every kind but the
    layout and filler kinds and the end marker. *)
Definition scanned_type (ty : TokenType) : bool :=
  match ty with
  | INDENT | DEDENT | EOF | WHITESPACE | COMMENT | SYMBOL => false
  | _ => true
  end.

Definition layout_type (ty : TokenType) : bool :=
  match ty with
  | INDENT | DEDENT => true
  | _ => false
  end.

(** [l'] comes after [l] in a run: the source text and the indentation
    stack are the same, the cursor has not moved back, and the token list
    has only grown, by tokens that satisfy [P]. *)
Record follows (P : Token.t -> Prop) (l l' : Lexer) : Prop := {
  follows_source : source l' = source l;
  follows_stack : indent_stack l' = indent_stack l;
  follows_position : position l <= position l';
  follows_tokens : exists new, tokens l' = tokens l ++ new /\ Forall P new
}.

Definition scanned (t : Token.t) : Prop :=
  scanned_type (Token.type t) = true.

Definition not_layout (t : Token.t) : Prop :=
  layout_type (Token.type t) = false.

(** The specification's reading of an escape: [n] is a newline, [t] a tab,
    every other character, the backslash included, is itself. *)
Definition escaped_character (c : char) : char :=
  if char_eqb c (chr "n") then NL
  else if char_eqb c (chr "t") then TAB
  else c.

(** The specification's value of a string literal, given the text after
    the opening quote: the decoded text up to the first quote character that
    is not part of an escape, or up to the end of the text.  A backslash
    takes the next character with it; a backslash that ends the text is
    dropped. *)
Fixpoint string_value (quote : char) (text : list char) : list char :=
  match text with
  | [] => []
  | c :: text' =>
      if char_eqb c quote then []
      else if char_eqb c BACKSLASH then
        match text' with
        | [] => []
        | e :: text'' => escaped_character e :: string_value quote text''
        end
      else c :: string_value quote text'
  end.

(** From [l] to [l'] one token has been appended, and it records where the
    cursor stands in [l']: past the lexeme. *)
Definition trailing (l l' : Lexer) : Prop :=
  exists t, tokens l' = tokens l ++ [t] /\
            (Token.line t, Token.column t) = (line l', column l').

(** From [l] to [l'] the line is the same and at most one token has been
    appended, which records where the cursor stood in [l]: at the start of
    the lexeme. *)
Definition leading (l l' : Lexer) : Prop :=
  line l' = line l /\
  (tokens l' = tokens l \/
   exists t, tokens l' = tokens l ++ [t] /\
             (Token.line t, Token.column t) = (line l, column l)).

(** Every character of the text that [str.isdigit] accepts is a decimal
    digit. *)
Definition digits_decimal {U : Host} (text : list char) : Prop :=
  forall c, In c text -> isdigit c = true -> decimal c <> None.

(** No run of digits in the text is too long for [int]. *)
Definition within_int_limit {U : Host} (text : list char) : Prop :=
  int_max_str_digits = 0 \/ List.length text <= int_max_str_digits.

(** The text consumed so far, [self.source[:self.position]]. *)
Definition consumed (l : Lexer) : list char :=
  firstn (position l) (source l).

(** The line the specification expects after a text has been consumed: one
    more than the number of newline characters in it. *)
Definition expected_line (text : list char) : Z :=
  1 + Z.of_nat (List.length (filter (char_eqb NL) text)).

(** The column the specification expects after a text has been consumed:
    one more than the number of characters after its last newline. *)
Fixpoint expected_column_from (column : Z) (text : list char) : Z :=
  match text with
  | [] => column
  | c :: text' =>
      expected_column_from (if char_eqb c NL then 1 else column + 1)%Z text'
  end.

Definition expected_column (text : list char) : Z :=
  expected_column_from 1 text.

(** The state a method leaves the object in. *)
Definition state_of (c : completion) : Lexer :=
  match c with
  | Normal l => l
  | Raised _ l => l
  end.

Definition state_of_control (c : control) : Lexer :=
  match c with
  | Continue l => l
  | Break l => l
  | Raise _ l => l
  end.

(** Two interpreters agree on a text: they have the same limit on integer
    literals and give each character of the text the same classification
    and the same decimal value. *)
Definition agree (U V : Host) (text : list char) : Prop :=
  @int_max_str_digits U = @int_max_str_digits V /\
  forall c, In c text ->
    @isdigit U c = @isdigit V c /\ @isalpha U c = @isalpha V c /\
    @isalnum U c = @isalnum V c /\ @decimal U c = @decimal V c.

(** The classification on ASCII, with a given limit on integer literals:
    what every interpreter agrees with on an ASCII text.  It stands for no
    interpreter outside ASCII and is used on ASCII texts only. *)
Definition ascii_host (limit : nat) : Host :=
  {| isdigit := ascii_isdigit;
     isalpha := ascii_isalpha;
     isalnum := fun c => ascii_isalpha c || ascii_isdigit c;
     decimal := fun c =>
       if ascii_isdigit c then Some (Z.of_N c - 48)%Z else None;
     int_max_str_digits := limit |}.

(** The specification's continuation characters of an identifier:
    alphanumeric, underscore, [?] and [!]. *)
Definition continuation_char {U : Host} (c : char) : bool :=
  isalnum c || char_eqb c (chr "_") || char_eqb c (chr "?")
  || char_eqb c (chr "!").

(** ** Notions of the further properties *)

Definition warning (r : LogRecord) : Prop :=
  match r with
  | WarningUnknownCharacter _ _ _ => True
  | _ => False
  end.

Definition newline_token (t : Token.t) : bool :=
  match Token.type t with
  | NEWLINE => true
  | _ => false
  end.

(** The number of Newline tokens in a list. *)
Definition newlines (toks : list Token.t) : nat :=
  List.length (filter newline_token toks).

(** [l'] comes after [l] on the same line: the source and the line counter
    are the same, the cursor has moved on by some characters and its column
    by at most as many, the tokens appended are no Newline tokens and record
    the line of [l] and a column between the two cursors, and what has been
    logged is warnings. *)
Record moves (l l' : Lexer) : Prop := {
  moves_source : source l' = source l;
  moves_line : line l' = line l;
  moves_position : position l <= position l';
  moves_column :
    (column l <= column l' <= column l + Z.of_nat (position l' - position l))%Z;
  moves_tokens :
    exists new,
      tokens l' = tokens l ++ new /\
      Forall (fun t => Token.line t = line l /\
                       (column l <= Token.column t <= column l')%Z /\
                       newline_token t = false) new;
  moves_logged :
    exists ws, logged l' = logged l ++ ws /\ Forall warning ws
}.

(** The bookkeeping of lines and columns is sound in [l]: the line counter
    is one more than the number of Newline tokens, every token records one
    more than the number of Newline tokens before it as its line and a
    column of at least 1, and the column counter is between 1 and one more
    than the position. *)
Record placed (l : Lexer) : Prop := {
  placed_line : line l = (1 + Z.of_nat (newlines (tokens l)))%Z;
  placed_column : (1 <= column l <= 1 + Z.of_nat (position l))%Z;
  placed_tokens :
    forall before t after,
      tokens l = before ++ t :: after ->
      Token.line t = (1 + Z.of_nat (newlines before))%Z /\
      (1 <= Token.column t)%Z
}.

(** The property of the tokens in [placed], for a list by itself. *)
Definition numbered (toks : list Token.t) : Prop :=
  forall before t after,
    toks = before ++ t :: after ->
    Token.line t = (1 + Z.of_nat (newlines before))%Z /\
    (1 <= Token.column t)%Z.

(** The number of positions the loop of the string reader moves the cursor,
    given the text after the opening quote: up to the closing quote or the
    end, two for an escape, also for a backslash that ends the text. *)
Fixpoint string_extent (quote : char) (text : list char) : nat :=
  match text with
  | [] => 0
  | c :: text' =>
      if char_eqb c quote then 0
      else if char_eqb c BACKSLASH then
        match text' with
        | [] => 2
        | _ :: text'' => 2 + string_extent quote text''
        end
      else 1 + string_extent quote text'
  end.



(** The number an ASCII digit string denotes in base ten. *)
Definition numeral (digits : list char) : Z :=
  fold_left (fun acc c => (10 * acc + (Z.of_N c - 48))%Z) digits 0%Z.

Definition ascii_digits (text : list char) : Prop :=
  Forall (fun c => (c < 128)%N /\ ascii_isdigit c = true) text.

Definition blank (c : char) : Prop := c = SPACE \/ c = TAB.

(** A character for which neither the main loop nor the operator reader
    has a branch: no newline, blank or [#], no digit, letter, underscore or
    quote, no punctuation and no one-character operator.  The exclamation
    mark is one: it is only read as the first half of [!=]. *)
Definition unrecognised {U : Host} (c : char) : bool :=
  negb (char_eqb c NL)
  && negb (char_in c [SPACE; TAB]) && negb (char_eqb c HASH)
  && negb (isdigit c) && negb (isalpha c || char_eqb c (chr "_"))
  && negb (char_eqb c DQUOTE || char_eqb c SQUOTE)
  && negb (char_in c (map fst punctuation))
  && negb (char_in c (map fst one_char_operators)).

(** A warning about an unrecognised character of [src]. *)
Definition reported {U : Host} (src : list char) (r : LogRecord) : Prop :=
  match r with
  | WarningUnknownCharacter c _ _ => In c src /\ unrecognised c = true
  | _ => False
  end.

(** What has been logged in [l] is the opening record of a run on [src] and
    then warnings about unrecognised characters of [src]; tokens and
    warnings together are no more than the characters read. *)
Record noted {U : Host} (src : list char) (l : Lexer) : Prop := {
  noted_source : source l = src;
  noted_logged :
    exists ws,
      logged l = DebugTokenizing (List.length src) :: ws /\
      Forall (reported src) ws /\
      List.length (tokens l) + List.length ws <=
      Nat.min (position l) (List.length src)
}.

(** One warning for each character of a text that starts at column [col] of
    line [ln]. *)
Fixpoint warnings (ln col : Z) (text : list char) : list LogRecord :=
  match text with
  | [] => []
  | c :: text' =>
      WarningUnknownCharacter c ln col :: warnings ln (col + 1) text'
  end.

(** ** Cursor and remaining text *)

Lemma current_rest (l : Lexer) : current l = hd_error (rest l).
Proof.
  unfold current, rest.
  generalize (position l); intros n; revert n.
  induction (source l) as [|c s IH]; intros [|n]; simpl; auto.
Qed.

Lemma skipn_nth_error {A : Type} (s : list A) (n : nat) (c : A) :
  nth_error s n = Some c -> skipn n s = c :: skipn (S n) s.
Proof.
  revert n; induction s as [|a s IH]; intros [|n] H; simpl in *;
    try discriminate.
  - now inversion H.
  - now apply IH.
Qed.

Lemma rest_current (l : Lexer) (c : char) :
  current l = Some c -> rest l = c :: rest (position_add 1 l).
Proof.
  unfold current, rest; simpl; intros H.
  rewrite Nat.add_1_r. now apply skipn_nth_error.
Qed.

Lemma rest_end (l : Lexer) : current l = None -> rest l = [].
Proof.
  unfold current, rest; intros H.
  apply skipn_all2. now apply nth_error_None.
Qed.

Lemma remaining_rest (l : Lexer) : remaining l = List.length (rest l).
Proof. unfold remaining, rest. now rewrite length_skipn. Qed.

Lemma remaining_current (l : Lexer) (c : char) :
  current l = Some c -> remaining l = S (remaining (position_add 1 l)).
Proof.
  intros H. rewrite !remaining_rest, (rest_current _ H). reflexivity.
Qed.

Lemma rest_position_add (l : Lexer) (n : nat) :
  rest (position_add n l) = skipn n (rest l).
Proof.
  unfold rest; simpl. now rewrite skipn_skipn, Nat.add_comm.
Qed.

(** Two states that differ in the cursor only. *)
Lemma advance_advance (n m : nat) (l : Lexer) :
  advance n (advance m l) = advance (m + n) l.
Proof.
  unfold advance, column_add, position_add; simpl.
  f_equal; lia.
Qed.

Lemma advance_one (l : Lexer) :
  column_add 1 (position_add 1 l) = advance 1 l.
Proof. reflexivity. Qed.

Lemma advance_zero (l : Lexer) : advance 0 l = l.
Proof.
  destruct l; unfold advance, column_add, position_add; simpl.
  f_equal; lia.
Qed.

(** ** The frame every statement preserves *)

Section Follows.
Variable P : Token.t -> Prop.

Lemma follows_refl (l : Lexer) : follows P l l.
Proof.
  split; auto. exists []. now rewrite app_nil_r.
Qed.

Lemma follows_trans (l1 l2 l3 : Lexer) :
  follows P l1 l2 -> follows P l2 l3 -> follows P l1 l3.
Proof.
  intros [S1 K1 P1 (n1 & T1 & F1)] [S2 K2 P2 (n2 & T2 & F2)].
  split; try congruence; try lia.
  exists (n1 ++ n2). split.
  - now rewrite T2, T1, app_assoc.
  - now apply Forall_app.
Qed.

Lemma follows_position_add (n : nat) (l : Lexer) :
  follows P l (position_add n l).
Proof.
  split; simpl; auto; try lia. exists []. now rewrite app_nil_r.
Qed.

Lemma follows_column_add (n : Z) (l : Lexer) :
  follows P l (column_add n l).
Proof.
  split; simpl; auto. exists []. now rewrite app_nil_r.
Qed.

Lemma follows_column_set (n : Z) (l : Lexer) :
  follows P l (column_set n l).
Proof.
  split; simpl; auto. exists []. now rewrite app_nil_r.
Qed.

Lemma follows_line_add (n : Z) (l : Lexer) :
  follows P l (line_add n l).
Proof.
  split; simpl; auto. exists []. now rewrite app_nil_r.
Qed.

Lemma follows_logger_emit (r : LogRecord) (l : Lexer) :
  follows P l (logger_emit r l).
Proof.
  split; simpl; auto. exists []. now rewrite app_nil_r.
Qed.

Lemma follows_tokens_append (t : Token.t) (l : Lexer) :
  P t -> follows P l (tokens_append t l).
Proof.
  intros H. split; simpl; auto. exists [t]. auto.
Qed.

Lemma follows_add_token (ty : TokenType) (v : Value) (l : Lexer) :
  (forall ln col, P (Token.mk ty v ln col)) ->
  follows P l (_add_token ty v l).
Proof. intros H. apply follows_tokens_append, H. Qed.

Lemma follows_advance (n : nat) (l : Lexer) : follows P l (advance n l).
Proof.
  eapply follows_trans;
    [apply follows_position_add | apply follows_column_add].
Qed.
End Follows.

Lemma follows_weaken (P Q : Token.t -> Prop) (l l' : Lexer) :
  (forall t, P t -> Q t) -> follows P l l' -> follows Q l l'.
Proof.
  intros PQ [S1 K1 P1 (n1 & T1 & F1)]. split; auto.
  exists n1. split; auto. eapply Forall_impl; eauto.
Qed.

Create HintDb follows.
#[export] Hint Resolve follows_refl follows_position_add follows_column_add
  follows_column_set follows_line_add follows_logger_emit follows_advance
  : follows.

(** ** The scanning loops *)

Lemma position_add_add (n m : nat) (l : Lexer) :
  position_add n (position_add m l) = position_add (m + n) l.
Proof. unfold position_add; simpl. f_equal; lia. Qed.

Lemma position_add_zero (l : Lexer) : position_add 0 l = l.
Proof. destruct l; unfold position_add; simpl. f_equal; lia. Qed.

Lemma rest_column_add (n : Z) (l : Lexer) : rest (column_add n l) = rest l.
Proof. reflexivity. Qed.

Lemma remaining_column_add (n : Z) (l : Lexer) :
  remaining (column_add n l) = remaining l.
Proof. reflexivity. Qed.

Lemma current_column_add (n : Z) (l : Lexer) :
  current (column_add n l) = current l.
Proof. reflexivity. Qed.

(** With fuel for every remaining character, the loop stops where its
    condition fails: after the longest run of characters satisfying [p]. *)
Lemma advance_while_run (p : char -> bool) (fuel : nat) (l : Lexer) :
  remaining l <= fuel ->
  advance_while p fuel l = advance (List.length (run p (rest l))) l.
Proof.
  revert l; induction fuel as [|fuel IH]; intros l Hfuel; simpl.
  - assert (E : rest l = []).
    { apply length_zero_iff_nil. rewrite <- remaining_rest. lia. }
    rewrite E; simpl. now rewrite advance_zero.
  - destruct (current l) as [c|] eqn:Hc.
    + rewrite (rest_current _ Hc); simpl.
      destruct (p c); [|now rewrite advance_zero].
      rewrite IH.
      * rewrite rest_column_add, advance_one, advance_advance.
        reflexivity.
      * rewrite remaining_column_add.
        rewrite (remaining_current _ Hc) in Hfuel. lia.
    + rewrite (rest_end _ Hc); simpl. now rewrite advance_zero.
Qed.

Lemma skip_comment_run (fuel : nat) (l : Lexer) :
  remaining l <= fuel ->
  skip_comment fuel l =
  position_add
    (List.length (run (fun c => negb (char_eqb c NL)) (rest l))) l.
Proof.
  revert l; induction fuel as [|fuel IH]; intros l Hfuel; simpl.
  - assert (E : rest l = []).
    { apply length_zero_iff_nil. rewrite <- remaining_rest. lia. }
    rewrite E; simpl. now rewrite position_add_zero.
  - destruct (current l) as [c|] eqn:Hc.
    + rewrite (rest_current _ Hc); simpl.
      destruct (negb (char_eqb c NL)); [|now rewrite position_add_zero].
      rewrite IH.
      * now rewrite position_add_add.
      * rewrite (remaining_current _ Hc) in Hfuel. lia.
    + rewrite (rest_end _ Hc); simpl. now rewrite position_add_zero.
Qed.

Section Frames.
Context {U : Host}.
Variable P : Token.t -> Prop.

Lemma follows_advance_while (p : char -> bool) (fuel : nat) (l : Lexer) :
  follows P l (advance_while p fuel l).
Proof.
  revert l; induction fuel as [|fuel IH]; intros l; simpl;
    auto with follows.
  destruct (current l); auto with follows.
  destruct (p c); auto with follows.
  eapply follows_trans; [|apply IH]. apply follows_advance.
Qed.

Lemma follows_skip_comment (fuel : nat) (l : Lexer) :
  follows P l (skip_comment fuel l).
Proof.
  revert l; induction fuel as [|fuel IH]; intros l; simpl;
    auto with follows.
  destruct (current l); auto with follows.
  destruct (negb (char_eqb c NL)); auto with follows.
  eapply follows_trans; [|apply IH]. auto with follows.
Qed.

Lemma follows_skip_loop (fuel : nat) (l : Lexer) :
  follows P l (skip_loop fuel l).
Proof.
  revert l; induction fuel as [|fuel IH]; intros l; simpl;
    auto with follows.
  destruct (current l); auto with follows.
  destruct (char_eqb c SPACE || (char_eqb c TAB || false)).
  - eapply follows_trans; [|apply IH]. apply follows_advance.
  - destruct (char_eqb c HASH); auto with follows.
    eapply follows_trans; [|apply IH]. apply follows_skip_comment.
Qed.

Lemma follows_skip_whitespace_and_comments (l : Lexer) :
  follows P l (_skip_whitespace_and_comments l).
Proof. apply follows_skip_loop. Qed.

Lemma follows_string_loop (quote : char) (fuel : nat) (value : list char)
  (l : Lexer) :
  follows P l (snd (string_loop quote fuel value l)).
Proof.
  revert value l; induction fuel as [|fuel IH]; intros value l; simpl;
    auto with follows.
  destruct (current l) as [c|]; simpl; auto with follows.
  destruct (negb (char_eqb c quote)); simpl; auto with follows.
  destruct (char_eqb c BACKSLASH).
  - destruct (current (column_add 1 (position_add 1 l)));
      (eapply follows_trans; [|apply IH]);
      (eapply follows_trans; apply (follows_advance P 1)).
  - eapply follows_trans; [|apply IH]. apply (follows_advance P 1).
Qed.
End Frames.

#[export] Hint Resolve follows_advance_while follows_skip_comment
  follows_skip_loop follows_skip_whitespace_and_comments
  follows_string_loop : follows.

(** ** The tables *)

Lemma dict_get_In (d : list (list char * TokenType)) (key : list char)
  (default : TokenType) :
  dict_get d key default = default \/
  In (dict_get d key default) (map snd d).
Proof.
  induction d as [|[k v] d IH]; simpl; auto.
  destruct (text_eqb k key); auto.
  destruct IH; auto.
Qed.

Lemma keyword_scanned (value : list char) :
  scanned_type (dict_get KEYWORDS value IDENTIFIER) = true.
Proof.
  destruct (dict_get_In KEYWORDS value IDENTIFIER) as [->|H]; auto.
  revert H; generalize (dict_get KEYWORDS value IDENTIFIER); intros ty H.
  unfold KEYWORDS in H; simpl in H.
  repeat (destruct H as [<-|H]; [reflexivity|]). contradiction.
Qed.

Lemma text_eqb_eq (a b : list char) : text_eqb a b = true -> a = b.
Proof.
  revert b; induction a as [|x a IH]; intros [|y b]; simpl;
    try discriminate; auto.
  intros H. apply andb_true_iff in H as [Hx Ha].
  apply N.eqb_eq in Hx. subst y. f_equal. now apply IH.
Qed.

Lemma two_char_operators_scanned (op : list char) (ty : TokenType) :
  In (op, ty) two_char_operators -> scanned_type ty = true.
Proof.
  unfold two_char_operators; simpl; intros H.
  repeat (destruct H as [H|H]; [inversion H; reflexivity|]). contradiction.
Qed.

Lemma one_char_operators_scanned (c : char) (ty : TokenType) :
  In (c, ty) one_char_operators -> scanned_type ty = true.
Proof.
  unfold one_char_operators; simpl; intros H.
  repeat (destruct H as [H|H]; [inversion H; reflexivity|]). contradiction.
Qed.

(** ** The if/elif chains against the tables *)

Lemma two_char_operator_cases (l l' : Lexer) :
  two_char_operator l = Some l' ->
  exists op ty,
    In (op, ty) two_char_operators /\
    position l + 1 < List.length (source l) /\
    slice (source l) (position l) (position l + 2) = op /\
    l' = advance 2 (_add_token ty (PyStr op) l).
Proof.
  unfold two_char_operator.
  destruct (position l + 1 <? List.length (source l)) eqn:Hlong;
    [|discriminate].
  apply Nat.ltb_lt in Hlong. cbv zeta.
  repeat match goal with
    | |- context [if text_eqb ?a ?b
                  then Some (add_then_advance ?ty _ _ _) else _] =>
        let E := fresh "E" in
        destruct (text_eqb a b) eqn:E;
        [ apply text_eqb_eq in E; intros H; injection H as <-;
          exists b, ty; repeat split; auto;
          unfold two_char_operators; simpl; auto 12
        | ]
    end.
  discriminate.
Qed.

Lemma one_char_operator_cases (c : char) (l : Lexer) :
  (exists ty, In (c, ty) one_char_operators /\
              one_char_operator c l = _add_token ty (PyStr [c]) l) \/
  (~ In c (map fst one_char_operators) /\
   one_char_operator c l =
   logger_emit (WarningUnknownCharacter c (line l) (column l)) l).
Proof.
  unfold one_char_operator.
  repeat match goal with
    | |- context [if char_eqb c ?k then _add_token ?ty _ _ else _] =>
        let E := fresh "E" in
        destruct (char_eqb c k) eqn:E;
        [ apply N.eqb_eq in E; subst c; left; exists ty; split;
          [unfold one_char_operators; simpl; auto 12|reflexivity]
        | ]
    end.
  right. split; [|reflexivity].
  unfold one_char_operators; simpl. intros H.
  repeat (destruct H as [H|H];
          [subst c; unfold char_eqb in *; simpl in *; discriminate|]).
  contradiction.
Qed.

Lemma read_operator_cases (l : Lexer) (c : char) :
  current l = Some c ->
  exists l', _read_operator l = Normal l' /\ operator_step c l l'.
Proof.
  intros Hc. unfold _read_operator. rewrite Hc.
  destruct (two_char_operator l) as [l'|] eqn:H2.
  - exists l'. split; [reflexivity|]. left.
    now apply two_char_operator_cases.
  - eexists. split; [reflexivity|]. right.
    destruct (one_char_operator_cases c l) as [(ty & Hin & ->)|[Hn ->]].
    + left. exists ty. split; [exact Hin|reflexivity].
    + right. split; [exact Hn|reflexivity].
Qed.

(** ** The readers keep the frame *)

Section Readers.
Context {U : Host}.

Lemma follows_add_scanned (ty : TokenType) (v : Value) (l : Lexer) :
  scanned_type ty = true -> follows scanned l (_add_token ty v l).
Proof. intros H. apply follows_add_token. intros; exact H. Qed.

Lemma follows_read_number (l : Lexer) :
  follows scanned l (state_of (_read_number l)).
Proof.
  unfold _read_number; cbv zeta.
  set (l1 := advance_while isdigit (remaining l) l).
  assert (F1 : follows scanned l l1) by apply follows_advance_while.
  destruct (match current l1 with
            | Some c => char_eqb c DOT_CHAR
            | None => false
            end).
  - set (l2 := column_add 1 (position_add 1 l1)).
    set (l3 := advance_while isdigit (remaining l2) l2).
    assert (F3 : follows scanned l l3).
    { eapply follows_trans; [exact F1|].
      eapply follows_trans; [apply (follows_advance scanned 1)|].
      apply follows_advance_while. }
    destruct (py_float _); simpl; auto.
    eapply follows_trans; [exact F3|]. now apply follows_add_scanned.
  - destruct (py_int _); simpl; auto.
    eapply follows_trans; [exact F1|]. now apply follows_add_scanned.
Qed.

Lemma follows_read_identifier (l : Lexer) :
  follows scanned l (_read_identifier l).
Proof.
  unfold _read_identifier; cbv zeta.
  eapply follows_trans; [apply follows_advance_while|].
  apply follows_add_scanned, keyword_scanned.
Qed.

Lemma follows_read_string (quote : char) (l : Lexer) :
  follows scanned l (_read_string quote l).
Proof.
  unfold _read_string; cbv zeta.
  set (l1 := column_add 1 (position_add 1 l)).
  pose proof (follows_string_loop scanned quote (remaining l1) [] l1) as F.
  destruct (string_loop quote (remaining l1) [] l1) as [value l2].
  simpl in F.
  eapply follows_trans; [apply (follows_advance scanned 1)|].
  eapply follows_trans; [exact F|].
  eapply follows_trans; [|now apply follows_add_scanned].
  destruct (current l2); auto with follows.
  apply (follows_advance scanned 1).
Qed.

Lemma follows_operator_step (c : char) (l l' : Lexer) :
  operator_step c l l' -> follows scanned l l'.
Proof.
  intros [(op & ty & Hin & _ & _ & ->)|[(ty & Hin & ->)|[_ ->]]].
  - eapply follows_trans; [|apply follows_advance].
    apply follows_add_scanned. now apply two_char_operators_scanned with op.
  - eapply follows_trans; [|apply follows_advance].
    apply follows_add_scanned. now apply one_char_operators_scanned with c.
  - eapply follows_trans; [|apply follows_advance].
    apply follows_logger_emit.
Qed.

Lemma follows_read_operator (l : Lexer) :
  follows scanned l (state_of (_read_operator l)).
Proof.
  destruct (current l) as [c|] eqn:Hc.
  - destruct (read_operator_cases _ Hc) as (l' & -> & Hstep).
    now apply follows_operator_step with c.
  - unfold _read_operator. rewrite Hc. simpl. apply follows_refl.
Qed.

(** After the newline, digit, letter and quote branches, the chain names
    the punctuation characters one by one and ends in the operator
    reader. *)
Lemma dispatch_cases (c : char) (l : Lexer) :
  char_eqb c NL = false -> isdigit c = false ->
  isalpha c || char_eqb c (chr "_") = false ->
  char_eqb c DQUOTE || char_eqb c SQUOTE = false ->
  (exists ty, In (c, ty) punctuation /\
              dispatch c l =
              Normal (advance 1 (_add_token ty (PyStr [c]) l))) \/
  (~ In c (map fst punctuation) /\ dispatch c l = _read_operator l).
Proof.
  intros Hn Hd Ha Hq. unfold dispatch. rewrite Hn, Hd, Ha, Hq.
  repeat match goal with
    | |- context [if char_eqb c ?k
                  then Normal (add_then_advance ?ty _ _ _) else _] =>
        let E := fresh "E" in
        destruct (char_eqb c k) eqn:E;
        [ apply N.eqb_eq in E; subst c; left; exists ty; split;
          [unfold punctuation; simpl; auto 12|reflexivity]
        | ]
    end.
  right. split; [|reflexivity].
  unfold punctuation; simpl. intros H.
  repeat (destruct H as [H|H];
          [subst c; unfold char_eqb in *; simpl in *; discriminate|]).
  contradiction.
Qed.

Lemma follows_dispatch (c : char) (l : Lexer) :
  follows scanned l (state_of (dispatch c l)).
Proof.
  unfold dispatch.
  destruct (char_eqb c NL).
  { cbn [state_of].
    eapply follows_trans; [|now apply follows_tokens_append].
    eapply follows_trans; [apply follows_position_add|].
    eapply follows_trans; [apply follows_line_add|].
    apply follows_column_set. }
  destruct (isdigit c); [apply follows_read_number|].
  destruct (isalpha c || char_eqb c (chr "_"));
    [apply follows_read_identifier|].
  destruct (char_eqb c DQUOTE || char_eqb c SQUOTE);
    [apply follows_read_string|].
  repeat match goal with
    | |- context [if char_eqb c ?k then _ else _] =>
        destruct (char_eqb c k);
        [ cbn [state_of]; unfold add_then_advance;
          (eapply follows_trans; [|apply follows_advance]);
          now apply follows_add_scanned
        | ]
    end.
  apply follows_read_operator.
Qed.

Lemma follows_iteration (l : Lexer) :
  follows scanned l (state_of_control (iteration l)).
Proof.
  unfold iteration; cbv zeta.
  set (l1 := _skip_whitespace_and_comments l).
  assert (F1 : follows scanned l l1)
    by apply follows_skip_whitespace_and_comments.
  destruct (current l1) as [c|]; simpl; auto.
  pose proof (follows_dispatch c l1) as F2.
  destruct (dispatch c l1); simpl in *; eapply follows_trans; eauto.
Qed.

Lemma follows_tokenize_loop (fuel : nat) (l : Lexer) (c : completion) :
  tokenize_loop fuel l = Some c -> follows scanned l (state_of c).
Proof.
  revert l; induction fuel as [|fuel IH]; intros l; simpl.
  - destruct (current l); [discriminate|].
    intros H; inversion H; simpl; auto with follows.
  - destruct (current l).
    + pose proof (follows_iteration l) as F.
      destruct (iteration l) as [l'|l'|e l']; simpl in F.
      * intros H. eapply follows_trans; [exact F|]. now apply IH.
      * intros H; inversion H; auto.
      * intros H; inversion H; auto.
    + intros H; inversion H; simpl; auto with follows.
Qed.
End Readers.

(** ** Every pass of the main loop consumes a character *)

Section Progress.
Context {U : Host} {UL : HostLaws U}.

Lemma run_head (p : char -> bool) (c : char) (text : list char) :
  p c = true -> 1 <= List.length (run p (c :: text)).
Proof. intros H; simpl; rewrite H; simpl; lia. Qed.

Lemma read_number_progress (l : Lexer) (c : char) :
  current l = Some c -> isdigit c = true ->
  position l < position (state_of (_read_number l)).
Proof.
  intros Hc Hd. unfold _read_number; cbv zeta.
  rewrite (advance_while_run isdigit l (le_n _)).
  rewrite (rest_current _ Hc).
  pose proof (@run_head isdigit c (rest (position_add 1 l)) Hd) as Hrun.
  set (n := List.length (run isdigit (c :: rest (position_add 1 l)))) in *.
  destruct (match current (advance n l) with
            | Some c => char_eqb c DOT_CHAR
            | None => false
            end).
  - set (l2 := column_add 1 (position_add 1 (advance n l))).
    pose proof (follows_position
                  (follows_advance_while scanned isdigit (remaining l2) l2))
      as Hpos.
    simpl in Hpos.
    destruct (py_float _); simpl; lia.
  - destruct (py_int _); simpl; lia.
Qed.

Lemma identifier_char_start (c : char) :
  isalpha c || char_eqb c (chr "_") = true -> identifier_char c = true.
Proof.
  unfold identifier_char. intros H.
  apply orb_true_iff in H as [H|H]; apply orb_true_iff.
  - left. now apply isalpha_isalnum.
  - right. simpl in *. now rewrite H.
Qed.

Lemma read_identifier_progress (l : Lexer) (c : char) :
  current l = Some c -> isalpha c || char_eqb c (chr "_") = true ->
  position l < position (_read_identifier l).
Proof.
  intros Hc Hs. unfold _read_identifier; cbv zeta.
  rewrite (advance_while_run identifier_char l (le_n _)).
  rewrite (rest_current _ Hc).
  pose proof (@run_head identifier_char c (rest (position_add 1 l))
                        (identifier_char_start _ Hs)) as Hrun.
  set (n := List.length _) in *.
  simpl. lia.
Qed.

Lemma read_string_progress (quote : char) (l : Lexer) :
  position l < position (_read_string quote l).
Proof.
  unfold _read_string; cbv zeta.
  set (l1 := column_add 1 (position_add 1 l)).
  pose proof (follows_position
                (follows_string_loop scanned quote (remaining l1) [] l1))
    as Hpos.
  destruct (string_loop quote (remaining l1) [] l1) as [value l2].
  simpl in Hpos.
  destruct (current l2); simpl; lia.
Qed.

Lemma read_operator_progress (l : Lexer) (c : char) :
  current l = Some c ->
  position l < position (state_of (_read_operator l)).
Proof.
  intros Hc.
  destruct (read_operator_cases _ Hc)
    as (l' & -> & [(op & ty & _ & _ & _ & ->)|[(ty & _ & ->)|[_ ->]]]);
    simpl; lia.
Qed.

Lemma dispatch_progress (l : Lexer) (c : char) :
  current l = Some c -> position l < position (state_of (dispatch c l)).
Proof.
  intros Hc. unfold dispatch.
  destruct (char_eqb c NL); [simpl; lia|].
  destruct (isdigit c) eqn:Hd; [now apply read_number_progress with c|].
  destruct (isalpha c || char_eqb c (chr "_")) eqn:Ha;
    [now apply read_identifier_progress with c|].
  destruct (char_eqb c DQUOTE || char_eqb c SQUOTE);
    [apply read_string_progress|].
  repeat match goal with
    | |- context [if char_eqb c ?k then _ else _] =>
        destruct (char_eqb c k); [simpl; lia|]
    end.
  now apply read_operator_progress with c.
Qed.

Lemma iteration_progress (l l' : Lexer) :
  iteration l = Continue l' ->
  source l' = source l /\ position l < position l'.
Proof.
  intros H.
  pose proof (follows_iteration l) as F. rewrite H in F; simpl in F.
  split; [apply F|].
  unfold iteration in H; cbv zeta in H.
  pose proof (follows_position
                (follows_skip_whitespace_and_comments scanned l)) as Hs.
  destruct (current (_skip_whitespace_and_comments l)) as [c|] eqn:Hc;
    [|discriminate].
  pose proof (dispatch_progress _ Hc) as Hd.
  destruct (dispatch c (_skip_whitespace_and_comments l));
    inversion H; subst; simpl in Hd; lia.
Qed.

(** The bound [tokenize] gives the main loop is enough: the loop ends by
    its own condition, by [break] or by an exception. *)
Lemma tokenize_loop_fuel (fuel : nat) (l : Lexer) :
  remaining l <= fuel -> exists c, tokenize_loop fuel l = Some c.
Proof.
  revert l; induction fuel as [|fuel IH]; intros l Hfuel; simpl.
  - destruct (current l) as [c|] eqn:Hc; eauto.
    rewrite (remaining_current _ Hc) in Hfuel. lia.
  - destruct (current l) as [c|] eqn:Hc; eauto.
    destruct (iteration l) as [l'|l'|e l'] eqn:Hi; eauto.
    apply IH. apply iteration_progress in Hi as [Hs Hp].
    unfold remaining in *. rewrite Hs. lia.
Qed.

Lemma tokenize_enough_fuel (l : Lexer) : exists c, tokenize l = Some c.
Proof.
  unfold tokenize; cbv zeta.
  destruct (@tokenize_loop_fuel _
              (logger_emit (DebugTokenizing (List.length (source l))) l)
              (le_n _)) as [c Hc].
  rewrite Hc. destruct c; eauto.
Qed.
End Progress.

(** ** The Latin-1 tables satisfy the laws *)

Ltac above_ascii c :=
  unfold char_in, existsb, char_eqb;
  repeat match goal with
    | |- context [N.eqb c ?k] =>
        replace (N.eqb c k) with false by (symmetry; apply N.eqb_neq; lia)
    | |- context [N.leb (N.pos ?k) c] =>
        replace (N.leb (N.pos k) c) with false
          by (symmetry; apply N.leb_gt; lia)
    end;
  rewrite ?andb_false_l, ?orb_false_r.

Lemma latin1_laws : HostLaws latin1.
Proof.
  split; simpl.
  - intros c Hc. unfold latin1_isdigit. now above_ascii c.
  - intros c Hc. unfold latin1_isalpha. now above_ascii c.
  - intros c Hc.
    unfold latin1_isalnum, latin1_isnumeric, latin1_isdigit, latin1_isalpha.
    now above_ascii c.
  - reflexivity.
  - intros c H. unfold latin1_isalnum. now rewrite H.
  - intros c H. unfold latin1_isalnum, latin1_isnumeric.
    rewrite H. simpl. apply orb_true_r.
  - intros c d. unfold latin1_decimal, latin1_isdigit.
    destruct (ascii_isdigit c) eqn:E; [|discriminate].
    intros H; inversion H; subst. split; auto.
    unfold ascii_isdigit in E. apply andb_true_iff in E as [E1 E2].
    apply N.leb_le in E1, E2. lia.
Qed.

(** ** The whole run *)

Lemma scanned_not_layout (t : Token.t) : scanned t -> not_layout t.
Proof.
  unfold scanned, not_layout. now destruct (Token.type t).
Qed.

Section Run.
Context {U : Host}.

Lemma follows_loop_head (n : nat) (l l' : Lexer) :
  loop_head n l = Some l' -> follows scanned l l'.
Proof.
  revert l; induction n as [|n IH]; intros l; simpl.
  - intros H; inversion H; auto with follows.
  - destruct (current l); [|discriminate].
    pose proof (follows_iteration l) as F.
    destruct (iteration l) as [l1|l1|e l1]; try discriminate.
    intros H. eapply follows_trans; [exact F|]. now apply IH.
Qed.

(** What [tokenize] adds to the scanning loop: the two debug records and
    the end marker, appended at the cursor's final place. *)
Lemma tokenize_returns (l l' : Lexer) :
  tokenize l = Some (Normal l') ->
  exists l1,
    follows scanned l l1 /\
    tokens l' =
      tokens l1 ++ [Token.mk EOF PyNone (line l1) (column l1)] /\
    source l' = source l1 /\ position l' = position l1 /\
    line l' = line l1 /\ column l' = column l1 /\
    indent_stack l' = indent_stack l1.
Proof.
  unfold tokenize; cbv zeta.
  set (l0 := logger_emit _ l).
  destruct (tokenize_loop (remaining l0) l0) as [[l1|e l1]|] eqn:H;
    try discriminate.
  intros E; inversion E; subst; clear E.
  exists l1. split; [|simpl; auto 10].
  apply follows_tokenize_loop in H; simpl in H.
  eapply follows_trans; [apply follows_logger_emit|exact H].
Qed.

Lemma tokenize_raises (l l' : Lexer) (e : Exception) :
  tokenize l = Some (Raised e l') -> follows scanned l l'.
Proof.
  unfold tokenize; cbv zeta.
  set (l0 := logger_emit _ l).
  destruct (tokenize_loop (remaining l0) l0) as [[l1|e1 l1]|] eqn:H;
    try discriminate.
  intros E; inversion E; subst; clear E.
  apply follows_tokenize_loop in H; simpl in H.
  eapply follows_trans; [apply follows_logger_emit|exact H].
Qed.

Lemma follows_tokenize (l : Lexer) (c : completion) :
  tokenize l = Some c -> follows not_layout l (state_of c).
Proof.
  destruct c as [l'|e l']; intros H; simpl.
  - apply tokenize_returns in H
      as (l1 & F & Ht & Hs & Hp & _ & _ & Hk).
    destruct F as [S1 K1 P1 (new & T1 & F1)].
    split; try congruence; try lia.
    exists (new ++ [Token.mk EOF PyNone (line l1) (column l1)]).
    split; [now rewrite Ht, T1, app_assoc|].
    apply Forall_app; split.
    + eapply Forall_impl; [apply scanned_not_layout|exact F1].
    + repeat constructor.
  - apply tokenize_raises in H.
    eapply follows_weaken; [apply scanned_not_layout|exact H].
Qed.
End Run.

(** C10.  For every input the indentation stack is [[0]] whenever the main
    loop tests its condition and when [tokenize] ends, whether by returning
    or by an exception, no pass through the loop body changes the stack, and
    no token in the list, at any of these moments and in the list returned,
    is of kind Indent or Dedent; and [tokenize] does end. *)
Theorem indent_stack_never_used (U : Host) (src : list char) :
  (forall n l,
     loop_head n (logger_emit (DebugTokenizing (List.length src)) (init src))
     = Some l ->
     indent_stack l = [0%Z] /\ Forall not_layout (tokens l)) /\
  (forall l, indent_stack (state_of_control (iteration l)) = indent_stack l) /\
  (forall c, lex src = Some c ->
     indent_stack (state_of c) = [0%Z] /\
     Forall not_layout (tokens (state_of c))) /\
  (HostLaws U -> exists c, lex src = Some c).
Proof.
  split; [|split; [|split]].
  - intros n l H. apply follows_loop_head in H.
    destruct H as [_ K _ (new & T & F)]. split; [exact K|].
    rewrite T; simpl.
    eapply Forall_impl; [apply scanned_not_layout|exact F].
  - intros l. apply (follows_stack (follows_iteration l)).
  - intros c H. apply follows_tokenize in H.
    destruct H as [_ K _ (new & T & F)]. split; [exact K|].
    now rewrite T.
  - intros UL. apply tokenize_enough_fuel.
Qed.

Lemma indent_stack_never_used_witness :
  exists l,
    @loop_head latin1 2 (logger_emit (DebugTokenizing 4) (init (str "if x")))
    = Some l /\
    indent_stack l = [0%Z] /\ Forall not_layout (tokens l).
Proof.
  eexists. split; [reflexivity|].
  apply (proj1 (indent_stack_never_used latin1 (str "if x")) 2).
  reflexivity.
Defined.

(** ** String literals *)

Lemma follows_nothing (l l' : Lexer) :
  follows (fun _ => False) l l' -> tokens l' = tokens l.
Proof.
  intros [_ _ _ (new & T & F)].
  destruct new as [|t new]; [now rewrite T, app_nil_r|].
  inversion F; contradiction.
Qed.

Lemma escape_spec (c : char) : escape c = escaped_character c.
Proof.
  unfold escape, escaped_character.
  destruct (char_eqb c (chr "n")); auto.
  destruct (char_eqb c (chr "t")); auto.
  destruct (char_eqb c BACKSLASH) eqn:E; auto.
  apply N.eqb_eq in E. now subst.
Qed.

Lemma remaining_position_add (n : nat) (l : Lexer) :
  remaining (position_add n l) = remaining l - n.
Proof. unfold remaining; simpl. lia. Qed.

(** With fuel for every remaining character the loop accumulates the value
    the specification describes. *)
Lemma string_loop_value (quote : char) (fuel : nat)
  (value : list char) (l : Lexer) :
  remaining l <= fuel ->
  fst (string_loop quote fuel value l) =
  value ++ string_value quote (rest l).
Proof.
  revert value l; induction fuel as [|fuel IH]; intros value l Hfuel.
  - assert (E : rest l = []).
    { apply length_zero_iff_nil. rewrite <- remaining_rest. lia. }
    rewrite E; simpl. now rewrite app_nil_r.
  - simpl. destruct (current l) as [c|] eqn:Hc.
    + rewrite (rest_current _ Hc). simpl string_value.
      pose proof (remaining_current _ Hc) as Hr.
      destruct (char_eqb c quote); simpl; [now rewrite app_nil_r|].
      destruct (char_eqb c BACKSLASH).
      * rewrite current_column_add.
        destruct (current (position_add 1 l)) as [e|] eqn:He.
        -- rewrite IH.
           ++ rewrite rest_column_add, (rest_current _ He).
              rewrite escape_spec, <- app_assoc.
              reflexivity.
           ++ rewrite remaining_column_add, remaining_position_add.
              rewrite remaining_column_add. lia.
        -- rewrite IH.
           ++ rewrite rest_column_add, rest_position_add, rest_column_add.
              rewrite (rest_end _ He). simpl. reflexivity.
           ++ rewrite remaining_column_add, remaining_position_add.
              rewrite remaining_column_add. lia.
      * rewrite IH.
        -- rewrite rest_column_add, <- app_assoc. reflexivity.
        -- rewrite remaining_column_add. lia.
    + rewrite (rest_end _ Hc). simpl. now rewrite app_nil_r.
Qed.

(** An input whose first pass through the main loop reads everything. *)
Lemma lex_single {U : Host} (src : list char) (c : char) (l2 : Lexer) :
  let l0 := logger_emit (DebugTokenizing (List.length src)) (init src) in
  current l0 = Some c ->
  char_in c [SPACE; TAB] = false -> char_eqb c HASH = false ->
  dispatch c l0 = Normal l2 -> current l2 = None ->
  returned (lex src) =
  Some (tokens l2 ++ [Token.mk EOF PyNone (line l2) (column l2)]).
Proof.
  cbv zeta. intros Hc Hw Hh Hd Hend.
  unfold lex, tokenize; cbv zeta.
  change (source (init src)) with src.
  set (l0 := logger_emit _ (init src)) in *.
  assert (Hskip : _skip_whitespace_and_comments l0 = l0).
  { unfold _skip_whitespace_and_comments.
    rewrite (remaining_current _ Hc). cbn [skip_loop].
    now rewrite Hc, Hw, Hh. }
  rewrite (remaining_current _ Hc). cbn [tokenize_loop]. rewrite Hc.
  unfold iteration; cbv zeta. rewrite Hskip, Hc, Hd.
  destruct (remaining (position_add 1 l0)); simpl; now rewrite Hend.
Qed.

(** Rewriting the classification of ASCII literals by the laws. *)
Ltac ascii_laws :=
  repeat first
    [ rewrite isdigit_ascii by reflexivity
    | rewrite isalpha_ascii by reflexivity
    | rewrite isalnum_ascii by reflexivity
    | rewrite decimal_ascii by reflexivity ].

(** Running the lexer on a literal input, whatever the database is outside
    ASCII. *)
Ltac run_lexer :=
  unfold lex, tokenize, returned;
  repeat (progress
            (unfold iteration, _skip_whitespace_and_comments, dispatch,
               _read_operator, two_char_operator, one_char_operator,
               add_then_advance, _read_identifier, _read_number,
               _read_string;
             simpl; ascii_laws)).

Lemma quote_dispatch {U : Host} {UL : HostLaws U} (quote : char)
  (l : Lexer) :
  quote = DQUOTE \/ quote = SQUOTE ->
  dispatch quote l = Normal (_read_string quote l).
Proof.
  intros Hq. unfold dispatch.
  assert (Ha : (quote < 128)%N) by (destruct Hq; subst; reflexivity).
  rewrite (isdigit_ascii Ha), (isalpha_ascii Ha).
  destruct Hq; subst; reflexivity.
Qed.

(** C9.  When the main loop meets a quote character (double or single), it
    appends exactly one String token and raises nothing; the token's value
    is the text of the source after the opening quote decoded up to, and not
    including, the first occurrence of the same quote character outside an
    escape, or up to the end of the input when there is none.  In decoding,
    backslash-n is a newline, backslash-t a tab, backslash-backslash one
    backslash, and any other escaped character is itself.  So the
    double-quoted a, backslash, n, b has the value a, newline, b; the
    single-quoted backslash-t, backslash-backslash, backslash-q, double
    quote has the value tab, backslash, q, double quote; an escaped quote
    does not close the literal; and an opening quote, a, b with no closing
    quote has the value ab. *)
Theorem string_literal_value (U : Host) (UL : HostLaws U) :
  (forall quote l,
     current l = Some quote ->
     quote = DQUOTE \/ quote = SQUOTE ->
     exists l',
       dispatch quote l = Normal l' /\
       tokens l' =
         tokens l ++
         [Token.mk STRING
            (PyStr (string_value quote (skipn (S (position l)) (source l))))
            (line l') (column l')]) /\
  returned (lex [34; 97; 92; 110; 98; 34]%N) =
    Some [Token.mk STRING (PyStr [97; 10; 98]%N) 1 7;
          Token.mk EOF PyNone 1 7] /\
  returned (lex [39; 92; 116; 92; 92; 92; 113; 34; 39]%N) =
    Some [Token.mk STRING (PyStr [9; 92; 113; 34]%N) 1 10;
          Token.mk EOF PyNone 1 10] /\
  returned (lex [34; 97; 92; 34; 98; 34]%N) =
    Some [Token.mk STRING (PyStr [97; 34; 98]%N) 1 7;
          Token.mk EOF PyNone 1 7] /\
  returned (lex [34; 97; 98]%N) =
    Some [Token.mk STRING (PyStr [97; 98]%N) 1 4;
          Token.mk EOF PyNone 1 4] /\
  escaped_character (chr "n") = NL /\
  escaped_character (chr "t") = TAB /\
  escaped_character BACKSLASH = BACKSLASH /\
  (forall c, c <> chr "n" -> c <> chr "t" -> escaped_character c = c).
Proof.
  split; [|repeat split].
  - intros quote l Hc Hq.
    exists (_read_string quote l). split; [now apply quote_dispatch|].
    replace (skipn (S (position l)) (source l))
      with (rest (position_add 1 l))
      by (unfold rest; simpl; now rewrite Nat.add_1_r).
    unfold _read_string; cbv zeta.
    set (l1 := column_add 1 (position_add 1 l)).
    pose proof (@string_loop_value quote (remaining l1) [] l1 (le_n _))
      as Hv.
    pose proof (follows_nothing
                  (follows_string_loop (fun _ => False) quote
                                       (remaining l1) [] l1)) as Ht.
    destruct (string_loop quote (remaining l1) [] l1) as [value l2].
    simpl in Hv, Ht. subst value.
    destruct (current l2); simpl; rewrite Ht; reflexivity.
  - rewrite (@lex_single U [34; 97; 92; 110; 98; 34]%N DQUOTE
               (_read_string DQUOTE
                  (logger_emit (DebugTokenizing 6)
                     (init [34; 97; 92; 110; 98; 34]%N))));
      [ vm_compute; reflexivity | reflexivity | reflexivity | reflexivity
      | apply quote_dispatch; left; reflexivity
      | vm_compute; reflexivity ].
  - rewrite (@lex_single U [39; 92; 116; 92; 92; 92; 113; 34; 39]%N SQUOTE
               (_read_string SQUOTE
                  (logger_emit (DebugTokenizing 9)
                     (init [39; 92; 116; 92; 92; 92; 113; 34; 39]%N))));
      [ vm_compute; reflexivity | reflexivity | reflexivity | reflexivity
      | apply quote_dispatch; right; reflexivity
      | vm_compute; reflexivity ].
  - rewrite (@lex_single U [34; 97; 92; 34; 98; 34]%N DQUOTE
               (_read_string DQUOTE
                  (logger_emit (DebugTokenizing 6)
                     (init [34; 97; 92; 34; 98; 34]%N))));
      [ vm_compute; reflexivity | reflexivity | reflexivity | reflexivity
      | apply quote_dispatch; left; reflexivity
      | vm_compute; reflexivity ].
  - rewrite (@lex_single U [34; 97; 98]%N DQUOTE
               (_read_string DQUOTE
                  (logger_emit (DebugTokenizing 3)
                     (init [34; 97; 98]%N))));
      [ vm_compute; reflexivity | reflexivity | reflexivity | reflexivity
      | apply quote_dispatch; left; reflexivity
      | vm_compute; reflexivity ].
  - intros c Hn Ht. unfold escaped_character.
    destruct (char_eqb c (chr "n")) eqn:E1;
      [apply N.eqb_eq in E1; contradiction|].
    destruct (char_eqb c (chr "t")) eqn:E2;
      [apply N.eqb_eq in E2; contradiction|].
    reflexivity.
Qed.

Lemma string_literal_value_witness :
  let l := init [34; 97; 92; 110; 98; 34]%N in
  current l = Some DQUOTE /\
  (DQUOTE = DQUOTE \/ DQUOTE = SQUOTE) /\
  string_value DQUOTE (skipn (S (position l)) (source l)) =
    [97; 10; 98]%N /\
  exists l',
    @dispatch latin1 DQUOTE l = Normal l' /\
    tokens l' =
      [Token.mk STRING (PyStr [97; 10; 98]%N) (line l') (column l')].
Proof.
  cbv zeta.
  assert (H1 : current (init [34; 97; 92; 110; 98; 34]%N) = Some DQUOTE)
    by reflexivity.
  assert (H2 : DQUOTE = DQUOTE \/ DQUOTE = SQUOTE) by (left; reflexivity).
  split; [exact H1|]. split; [exact H2|]. split; [reflexivity|].
  exact (proj1 (@string_literal_value latin1 latin1_laws) DQUOTE
               (init [34; 97; 92; 110; 98; 34]%N) H1 H2).
Defined.

(** ** Operators *)

(** C6.  When the operator reader runs with at least two characters left
    and they spell ==, !=, <=, >=, ->, ** or |>, it appends the token of that
    two-character operator and moves the cursor by two, whatever one-character
    operator the first character is; so the input "->" gives one Arrow token
    and the end marker, and "==" gives one Eq token and the end marker. *)
Theorem two_char_operators_first (U : Host) (UL : HostLaws U) :
  (forall l op ty,
     position l + 1 < List.length (source l) ->
     In (op, ty) two_char_operators ->
     slice (source l) (position l) (position l + 2) = op ->
     _read_operator l = Normal (advance 2 (_add_token ty (PyStr op) l))) /\
  returned (lex (str "->")) =
    Some [Token.mk ARROW (PyStr (str "->")) 1 1; Token.mk EOF PyNone 1 3] /\
  returned (lex (str "==")) =
    Some [Token.mk EQ (PyStr (str "==")) 1 1; Token.mk EOF PyNone 1 3].
Proof.
  split; [|split].
  - intros l op ty Hlen Hin Hop.
    unfold _read_operator, two_char_operator.
    destruct (current l) as [c|] eqn:Hc.
    + apply Nat.ltb_lt in Hlen. rewrite Hlen; cbv zeta. rewrite Hop.
      unfold two_char_operators in *. simpl in Hin.
      repeat (destruct Hin as [Hin|Hin];
              [inversion Hin; subst; reflexivity|]).
      contradiction.
    + apply nth_error_None in Hc. lia.
  - run_lexer. reflexivity.
  - run_lexer. reflexivity.
Qed.

Lemma two_char_operators_first_witness :
  let l := init (str "a |> b") in
  let l2 := position_add 2 l in
  position l2 + 1 < List.length (source l2) /\
  In (str "|>", PIPE) two_char_operators /\
  slice (source l2) (position l2) (position l2 + 2) = str "|>" /\
  _read_operator l2 =
    Normal (advance 2 (_add_token PIPE (PyStr (str "|>")) l2)).
Proof.
  cbv zeta.
  assert (H1 : position (position_add 2 (init (str "a |> b"))) + 1
               < List.length (source (position_add 2 (init (str "a |> b")))))
    by (simpl; lia).
  assert (H2 : In (str "|>", PIPE) two_char_operators)
    by (unfold two_char_operators; simpl; tauto).
  split; [exact H1|]. split; [exact H2|]. split; [reflexivity|].
  apply (proj1 (@two_char_operators_first latin1 latin1_laws) _ _ _ H1 H2).
  reflexivity.
Defined.

(** ** The interpreter matters only on the characters of the source *)

Lemma slice_In (text : list char) (a b : nat) (c : char) :
  In c (slice text a b) -> In c text.
Proof.
  unfold slice. intros H.
  assert (H1 : In c (skipn a text)).
  { rewrite <- (firstn_skipn (b - a) (skipn a text)).
    apply in_or_app. now left. }
  rewrite <- (firstn_skipn a text). apply in_or_app. now right.
Qed.

Lemma split_dot_In (text : list char) (c : char) :
  In c (fst (split_dot text) ++
        match snd (split_dot text) with Some f => f | None => [] end) ->
  In c text.
Proof.
  induction text as [|d text IH]; simpl; auto.
  destruct (char_eqb d DOT_CHAR).
  - simpl. now right.
  - destruct (split_dot text) as [a b]. simpl in *.
    intros [->|H]; auto.
Qed.

Lemma advance_while_same (p q : char -> bool) (fuel : nat) (l : Lexer) :
  (forall c, In c (source l) -> p c = q c) ->
  advance_while p fuel l = advance_while q fuel l.
Proof.
  revert l; induction fuel as [|fuel IH]; intros l H; simpl; auto.
  destruct (current l) as [c|] eqn:Hc; auto.
  rewrite <- (H c) by (unfold current in Hc; now apply nth_error_In in Hc).
  destruct (p c); [apply IH; exact H|reflexivity].
Qed.

Section Agree.
Variables U V : Host.

Lemma decimal_value_agree (text : list char) (acc : Z) :
  (forall c, In c text -> @decimal U c = @decimal V c) ->
  @decimal_value acc text U = @decimal_value acc text V.
Proof.
  revert acc; induction text as [|c text IH]; intros acc H; simpl; auto.
  rewrite <- (H c) by now left.
  destruct (@decimal U c); auto.
  apply IH. intros d Hd. apply H. now right.
Qed.

Lemma py_int_agree (text : list char) :
  agree U V text -> @py_int U text = @py_int V text.
Proof.
  intros [Hlim H]. unfold py_int. destruct text as [|c text]; auto.
  rewrite Hlim. destruct (_ && _); auto.
  apply decimal_value_agree. intros d Hd. now apply H.
Qed.

Lemma py_float_agree (text : list char) :
  agree U V text -> @py_float U text = @py_float V text.
Proof.
  intros [_ H]. unfold py_float.
  pose proof (split_dot_In text) as Hin.
  destruct (split_dot text) as [whole after]. cbn [fst snd] in Hin.
  set (fraction := match after with Some f => f | None => [] end) in *.
  assert (E : @decimal_value 0 (whole ++ fraction) U =
              @decimal_value 0 (whole ++ fraction) V).
  { apply decimal_value_agree. intros c Hc. apply H. now apply Hin. }
  destruct (whole ++ fraction); auto. now rewrite E.
Qed.

Lemma agree_slice (text : list char) (a b : nat) :
  agree U V text -> agree U V (slice text a b).
Proof.
  intros [Hlim H]. split; [exact Hlim|].
  intros c Hc. apply H. now apply slice_In in Hc.
Qed.

Lemma read_number_agree (l : Lexer) :
  agree U V (source l) -> @_read_number U l = @_read_number V l.
Proof.
  intros A. pose proof A as [Hlim H].
  unfold _read_number; cbv zeta.
  rewrite (advance_while_same (@isdigit U) (@isdigit V) (remaining l) l)
    by (intros c Hc; now apply H).
  set (l1 := advance_while (@isdigit V) (remaining l) l).
  assert (S1 : source l1 = source l)
    by apply (follows_source
                (follows_advance_while (fun _ => True) _ _ _)).
  destruct (match current l1 with
            | Some c => char_eqb c DOT_CHAR
            | None => false
            end).
  - set (l2 := column_add 1 (position_add 1 l1)).
    rewrite (advance_while_same (@isdigit U) (@isdigit V) (remaining l2) l2)
      by (intros c Hc; apply H; rewrite <- S1; exact Hc).
    set (l3 := advance_while (@isdigit V) (remaining l2) l2).
    assert (S3 : source l3 = source l).
    { rewrite <- S1.
      exact (follows_source
               (follows_advance_while (fun _ => True) (@isdigit V)
                                      (remaining l2) l2)). }
    rewrite (@py_float_agree (slice (source l3) (position l) (position l3)))
      by (rewrite S3; now apply agree_slice).
    reflexivity.
  - rewrite (@py_int_agree (slice (source l1) (position l) (position l1)))
      by (rewrite S1; now apply agree_slice).
    reflexivity.
Qed.

Lemma read_identifier_agree (l : Lexer) :
  agree U V (source l) -> @_read_identifier U l = @_read_identifier V l.
Proof.
  intros [_ H]. unfold _read_identifier; cbv zeta.
  rewrite (advance_while_same (@identifier_char U) (@identifier_char V)
             (remaining l) l); [reflexivity|].
  intros c Hc. unfold identifier_char.
  destruct (H c Hc) as (_ & _ & -> & _). reflexivity.
Qed.

Lemma dispatch_agree (c : char) (l : Lexer) :
  In c (source l) -> agree U V (source l) ->
  @dispatch U c l = @dispatch V c l.
Proof.
  intros Hc A. unfold dispatch.
  destruct (proj2 A c Hc) as (-> & -> & _).
  now rewrite (@read_number_agree l A), (@read_identifier_agree l A).
Qed.

Lemma iteration_agree (l : Lexer) :
  agree U V (source l) -> @iteration U l = @iteration V l.
Proof.
  intros A. unfold iteration; cbv zeta.
  pose proof (follows_source
                (follows_skip_whitespace_and_comments (fun _ => True) l))
    as S1.
  destruct (current (_skip_whitespace_and_comments l)) as [c|] eqn:Hc;
    [|reflexivity].
  rewrite dispatch_agree; [reflexivity| |now rewrite S1].
  unfold current in Hc. now apply nth_error_In in Hc.
Qed.

Lemma tokenize_loop_agree (fuel : nat) (l : Lexer) :
  agree U V (source l) ->
  @tokenize_loop U fuel l = @tokenize_loop V fuel l.
Proof.
  revert l; induction fuel as [|fuel IH]; intros l A; simpl; auto.
  destruct (current l); auto.
  rewrite <- (@iteration_agree l A).
  pose proof (follows_source (@follows_iteration U l)) as S1.
  destruct (@iteration U l) as [l'|l'|e l']; auto.
  apply IH. simpl in S1. now rewrite S1.
Qed.

Lemma lex_agree (src : list char) :
  agree U V src -> @lex U src = @lex V src.
Proof.
  intros A. unfold lex, tokenize; cbv zeta.
  now rewrite tokenize_loop_agree.
Qed.
End Agree.

(** On an ASCII text every interpreter that satisfies the laws lexes as the
    ASCII classification does. *)
Lemma lex_ascii {U : Host} {UL : HostLaws U} (src : list char) :
  forallb (fun c => N.ltb c 128) src = true ->
  @lex U src = @lex (ascii_host (@int_max_str_digits U)) src.
Proof.
  intros H. apply lex_agree. split; [reflexivity|].
  intros c Hc.
  assert (Ha : (c < 128)%N).
  { apply N.ltb_lt. rewrite forallb_forall in H. now apply H. }
  simpl.
  rewrite (isdigit_ascii Ha), (isalpha_ascii Ha), (isalnum_ascii Ha),
          (decimal_ascii Ha).
  auto.
Qed.

(** ** Identifiers and reserved words *)

Lemma run_firstn (p : char -> bool) (text : list char) :
  firstn (List.length (run p text)) text = run p text.
Proof.
  induction text as [|c text IH]; simpl; auto.
  destruct (p c); simpl; auto. now rewrite IH.
Qed.

Lemma run_all (p : char -> bool) (text : list char) :
  forallb p text = true -> run p text = text.
Proof.
  induction text as [|c text IH]; simpl; auto.
  intros H. apply andb_true_iff in H as [Hc Ht].
  rewrite Hc. now rewrite IH.
Qed.

(** The slice a reader takes from where it started to where its loop
    stopped is the run its loop has consumed. *)
Lemma slice_run (p : char -> bool) (l : Lexer) :
  slice (source l) (position l)
        (position l + List.length (run p (rest l))) = run p (rest l).
Proof.
  unfold slice. rewrite Nat.add_comm, Nat.add_sub. apply run_firstn.
Qed.

Lemma read_identifier_run {U : Host} (l : Lexer) :
  _read_identifier l =
  let lexeme := run identifier_char (rest l) in
  _add_token (dict_get KEYWORDS lexeme IDENTIFIER) (PyStr lexeme)
             (advance (List.length lexeme) l).
Proof.
  unfold _read_identifier; cbv zeta.
  rewrite (advance_while_run identifier_char l (le_n _)).
  change (source (advance ?n l)) with (source l).
  change (position (advance ?n l)) with (position l + n).
  now rewrite slice_run.
Qed.

Lemma ascii_isalpha_char (c : char) :
  ascii_isalpha c = true ->
  ascii_isdigit c = false /\ char_eqb c NL = false /\
  char_eqb c SPACE = false /\ char_eqb c TAB = false /\
  char_eqb c HASH = false.
Proof.
  unfold ascii_isalpha, ascii_isdigit, char_eqb. intros H.
  apply orb_true_iff in H.
  assert (R : (65 <= c)%N).
  { destruct H as [H|H]; apply andb_true_iff in H as [H _];
      apply N.leb_le in H; lia. }
  repeat split;
    try (apply N.eqb_neq; unfold NL, SPACE, TAB, HASH; simpl; lia).
  apply andb_false_iff. right. apply N.leb_gt. lia.
Qed.

(** An input that is one word, starting with an ASCII letter: one token,
    classified by the reserved-word table, and the end marker. *)
Lemma lex_word {U : Host} {UL : HostLaws U} (c : char)
  (w : list char) :
  (c < 128)%N -> ascii_isalpha c = true ->
  forallb identifier_char (c :: w) = true ->
  returned (lex (c :: w)) =
  Some [Token.mk (dict_get KEYWORDS (c :: w) IDENTIFIER) (PyStr (c :: w))
                 1 (1 + Z.of_nat (List.length (c :: w)));
        Token.mk EOF PyNone 1 (1 + Z.of_nat (List.length (c :: w)))].
Proof.
  intros Hc Ha Hw.
  destruct (ascii_isalpha_char _ Ha) as (Hd & Hn & Hs & Ht & Hh).
  unfold lex, tokenize; cbv zeta.
  set (l0 := logger_emit _ (init (c :: w))).
  assert (Hcur : current l0 = Some c) by reflexivity.
  assert (Hskip : _skip_whitespace_and_comments l0 = l0).
  { unfold _skip_whitespace_and_comments.
    change (remaining l0) with (S (List.length w)).
    simpl. unfold char_in; simpl. now rewrite Hs, Ht, Hh. }
  assert (Hit : iteration l0 = Continue (_read_identifier l0)).
  { unfold iteration; cbv zeta. rewrite Hskip, Hcur.
    unfold dispatch.
    rewrite Hn, (isdigit_ascii Hc), Hd, (isalpha_ascii Hc), Ha.
    reflexivity. }
  change (remaining l0) with (S (List.length w)).
  cbn [tokenize_loop]. rewrite Hcur, Hit.
  rewrite read_identifier_run; cbv zeta.
  change (rest l0) with (c :: w).
  rewrite (run_all _ _ Hw).
  set (ty := dict_get KEYWORDS (c :: w) IDENTIFIER).
  set (l2 := _add_token ty (PyStr (c :: w)) _).
  assert (Hend : current l2 = None).
  { unfold current, l2. simpl source. simpl position.
    apply nth_error_None. simpl. lia. }
  destruct (List.length w); simpl tokenize_loop; rewrite Hend;
    reflexivity.
Qed.

Lemma identifier_char_spelled {U : Host} (c : char) :
  identifier_char c = continuation_char c.
Proof.
  unfold identifier_char, continuation_char, char_in. simpl.
  now rewrite orb_false_r, !orb_assoc.
Qed.

Lemma run_same (p q : char -> bool) (text : list char) :
  (forall c, p c = q c) -> run p text = run q text.
Proof.
  intros H. induction text as [|c text IH]; simpl; auto.
  rewrite <- H. destruct (p c); auto. now rewrite IH.
Qed.

Lemma forallb_same (p q : char -> bool) (text : list char) :
  (forall c, p c = q c) -> forallb p text = forallb q text.
Proof.
  intros H. induction text as [|c text IH]; simpl; auto.
  now rewrite H, IH.
Qed.

(** C7.  The identifier reader consumes the longest run of alphanumeric,
    underscore, [?] and [!] characters of the source from the cursor on and
    looks the run up in the reserved-word table, taking Identifier when it is
    absent; the value is the run itself, and the cursor ends just past it.
    So "true" and "false" each give one Boolean token whose value is that
    text; "true x" gives the Boolean token and then the Identifier x, the
    blank ending the first lexeme; "ok?" is one Identifier; "a!b_1-c" is the
    Identifier a!b_1, a Minus and the Identifier c; and "true" or "false"
    followed by one or more continuation characters gives one Identifier
    token whose value is the full text. *)
Theorem identifier_keyword_partition (U : Host) (UL : HostLaws U) :
  (forall l,
     let lexeme :=
       run continuation_char (skipn (position l) (source l)) in
     let l' := _read_identifier l in
     tokens l' =
       tokens l ++
       [Token.mk (dict_get KEYWORDS lexeme IDENTIFIER) (PyStr lexeme)
                 (line l) (column l + Z.of_nat (List.length lexeme))] /\
     source l' = source l /\
     position l' = position l + List.length lexeme /\
     line l' = line l /\
     column l' = (column l + Z.of_nat (List.length lexeme))%Z /\
     indent_stack l' = indent_stack l /\ logged l' = logged l) /\
  returned (lex (str "true")) =
    Some [Token.mk BOOLEAN (PyStr (str "true")) 1 5;
          Token.mk EOF PyNone 1 5] /\
  returned (lex (str "false")) =
    Some [Token.mk BOOLEAN (PyStr (str "false")) 1 6;
          Token.mk EOF PyNone 1 6] /\
  returned (lex (str "true x")) =
    Some [Token.mk BOOLEAN (PyStr (str "true")) 1 5;
          Token.mk IDENTIFIER (PyStr (str "x")) 1 7;
          Token.mk EOF PyNone 1 7] /\
  returned (lex (str "ok?")) =
    Some [Token.mk IDENTIFIER (PyStr (str "ok?")) 1 4;
          Token.mk EOF PyNone 1 4] /\
  returned (lex (str "a!b_1-c")) =
    Some [Token.mk IDENTIFIER (PyStr (str "a!b_1")) 1 6;
          Token.mk MINUS (PyStr (str "-")) 1 6;
          Token.mk IDENTIFIER (PyStr (str "c")) 1 8;
          Token.mk EOF PyNone 1 8] /\
  (forall word more,
     word = str "true" \/ word = str "false" ->
     more <> [] -> forallb continuation_char more = true ->
     returned (lex (word ++ more)) =
     Some [Token.mk IDENTIFIER (PyStr (word ++ more)) 1
                    (1 + Z.of_nat (List.length (word ++ more)));
           Token.mk EOF PyNone 1
                    (1 + Z.of_nat (List.length (word ++ more)))]).
Proof.
  assert (Hletters : forallb identifier_char (str "true") = true /\
                     forallb identifier_char (str "false") = true).
  { split; simpl; unfold identifier_char; ascii_laws; reflexivity. }
  destruct Hletters as [Htrue Hfalse].
  split; [|split; [|split; [|split; [|split; [|split]]]]].
  - intros l; cbv zeta. rewrite read_identifier_run; cbv zeta.
    rewrite (run_same identifier_char continuation_char (rest l)
                      identifier_char_spelled).
    change (rest l) with (skipn (position l) (source l)).
    cbn [tokens source position line column indent_stack logged
         _add_token tokens_append advance column_add position_add].
    repeat split; reflexivity.
  - change (str "true") with (116%N :: str "rue").
    rewrite lex_word; [reflexivity|reflexivity|reflexivity|exact Htrue].
  - change (str "false") with (102%N :: str "alse").
    rewrite lex_word; [reflexivity|reflexivity|reflexivity|exact Hfalse].
  - rewrite (@lex_ascii U UL (str "true x")) by reflexivity.
    vm_compute. reflexivity.
  - rewrite (@lex_ascii U UL (str "ok?")) by reflexivity.
    vm_compute. reflexivity.
  - rewrite (@lex_ascii U UL (str "a!b_1-c")) by reflexivity.
    vm_compute. reflexivity.
  - intros word more Hword Hne Hmore.
    rewrite <- (forallb_same identifier_char continuation_char more
                  identifier_char_spelled) in Hmore.
    destruct more as [|m more]; [contradiction|].
    destruct Hword; subst word.
    + change (str "true" ++ m :: more)
        with (116%N :: str "rue" ++ m :: more).
      rewrite lex_word; [reflexivity|reflexivity|reflexivity|].
      change (116%N :: str "rue" ++ m :: more)
        with (str "true" ++ m :: more).
      rewrite forallb_app. now rewrite Htrue, Hmore.
    + change (str "false" ++ m :: more)
        with (102%N :: str "alse" ++ m :: more).
      rewrite lex_word; [reflexivity|reflexivity|reflexivity|].
      change (102%N :: str "alse" ++ m :: more)
        with (str "false" ++ m :: more).
      rewrite forallb_app. now rewrite Hfalse, Hmore.
Qed.

Lemma identifier_keyword_partition_witness :
  str "e?" <> [] /\
  forallb (@continuation_char latin1) (str "e?") = true /\
  returned (@lex latin1 (str "true" ++ str "e?")) =
  Some [Token.mk IDENTIFIER (PyStr (str "truee?")) 1 7;
        Token.mk EOF PyNone 1 7].
Proof.
  assert (H1 : str "e?" <> []) by discriminate.
  assert (H2 : forallb (@continuation_char latin1) (str "e?") = true)
    by reflexivity.
  split; [exact H1|]. split; [exact H2|].
  exact (proj2 (proj2 (proj2 (proj2 (proj2 (proj2
           (@identifier_keyword_partition latin1 latin1_laws))))))
           (str "true") (str "e?") (or_introl eq_refl) H1 H2).
Defined.

(** ** Newlines *)

(** C3, as the specification words it, fails: on the input made of one
    newline the line counter is 2 after the increment, and the Newline
    token records line 1. *)
Lemma newline_token_line_counterexample :
  ~ (forall (l l' : Lexer) (t : Token.t),
       current l = Some NL ->
       @dispatch latin1 NL l = Normal l' ->
       tokens l' = tokens l ++ [t] ->
       Token.line t = line l' /\ Token.column t = 1%Z).
Proof.
  intros H.
  destruct (H (init [NL]) _ _ eq_refl eq_refl eq_refl) as [Hline _].
  discriminate Hline.
Qed.

(** C3, amended.  For every newline character the main loop scans, the
    cursor moves one character on, the line counter grows by one and the
    column is reset to 1; the Newline token appended then records the line
    counter after the increment minus one, that is the line the newline
    ends, and column 1. *)
Theorem newline_token_position (U : Host) (l : Lexer) :
  current l = Some NL ->
  exists l',
    dispatch NL l = Normal l' /\
    position l' = position l + 1 /\
    line l' = (line l + 1)%Z /\
    column l' = 1%Z /\
    tokens l' =
      tokens l ++ [Token.mk NEWLINE (PyStr [NL]) (line l' - 1) 1] /\
    (line l' - 1 = line l)%Z.
Proof.
  intros _. eexists. split; [reflexivity|].
  simpl. repeat split; lia.
Qed.

Lemma newline_token_position_witness :
  let l := position_add 1 (init (str "a" ++ [NL] ++ str "b")) in
  current l = Some NL /\
  exists l',
    @dispatch latin1 NL l = Normal l' /\
    position l' = position l + 1 /\
    line l' = (line l + 1)%Z /\
    column l' = 1%Z /\
    tokens l' =
      tokens l ++ [Token.mk NEWLINE (PyStr [NL]) (line l' - 1) 1] /\
    (line l' - 1 = line l)%Z.
Proof.
  split; [reflexivity|].
  apply (@newline_token_position latin1
           (position_add 1 (init (str "a" ++ [NL] ++ str "b")))).
  reflexivity.
Defined.

(** ** Recorded positions *)

Lemma advance_while_column (p : char -> bool) (fuel : nat) (l : Lexer) :
  (column l <= column (advance_while p fuel l))%Z.
Proof.
  revert l; induction fuel as [|fuel IH]; intros l; simpl; [lia|].
  destruct (current l); [|lia].
  destruct (p c); [|lia].
  specialize (IH (column_add 1 (position_add 1 l))). simpl in IH. lia.
Qed.

Lemma string_loop_column (quote : char) (fuel : nat) (value : list char)
  (l : Lexer) :
  (column l <= column (snd (string_loop quote fuel value l)))%Z.
Proof.
  revert value l; induction fuel as [|fuel IH]; intros value l; simpl;
    [lia|].
  destruct (current l) as [c|]; simpl; [|lia].
  destruct (negb (char_eqb c quote)); simpl; [|lia].
  destruct (char_eqb c BACKSLASH).
  - destruct (current (column_add 1 (position_add 1 l)));
      match goal with
      | |- (_ <= column (snd (string_loop _ _ ?v ?l1)))%Z =>
          specialize (IH v l1); simpl in IH; lia
      end.
  - match goal with
    | |- (_ <= column (snd (string_loop _ _ ?v ?l1)))%Z =>
        specialize (IH v l1); simpl in IH; lia
    end.
Qed.

Section Positions.
Context {U : Host} {UL : HostLaws U}.

Lemma read_number_trailing (l l' : Lexer) (c : char) :
  current l = Some c -> isdigit c = true ->
  _read_number l = Normal l' ->
  (column l < column l')%Z /\ trailing l l'.
Proof.
  intros Hc Hd. unfold _read_number; cbv zeta.
  pose proof (follows_nothing
                (follows_advance_while (fun _ => False) isdigit
                                       (remaining l) l)) as Ht1.
  rewrite (advance_while_run isdigit l (le_n _)) in *.
  rewrite (rest_current _ Hc) in *.
  pose proof (@run_head isdigit c (rest (position_add 1 l)) Hd) as Hrun.
  set (n := List.length (run isdigit (c :: rest (position_add 1 l)))) in *.
  set (l1 := advance n l) in *.
  assert (Hc1 : (column l < column l1)%Z) by (simpl; lia).
  destruct (match current l1 with
            | Some c => char_eqb c DOT_CHAR
            | None => false
            end).
  - set (l2 := column_add 1 (position_add 1 l1)).
    pose proof (follows_nothing
                  (follows_advance_while (fun _ => False) isdigit
                                         (remaining l2) l2)) as Ht3.
    pose proof (advance_while_column isdigit (remaining l2) l2) as Hc3.
    set (l3 := advance_while isdigit (remaining l2) l2) in *.
    destruct (py_float _); [|discriminate].
    intros H; injection H as <-. split.
    + simpl in *. lia.
    + change (tokens l2) with (tokens l1) in Ht3.
      eexists. split;
        [unfold _add_token, tokens_append; cbn [tokens];
         rewrite Ht3, Ht1; reflexivity
        |reflexivity].
  - destruct (py_int _); [|discriminate].
    intros H; injection H as <-. split.
    + simpl in *. lia.
    + eexists. split;
        [unfold _add_token, tokens_append; cbn [tokens];
         rewrite Ht1; reflexivity
        |reflexivity].
Qed.

Lemma read_identifier_trailing (l : Lexer) (c : char) :
  current l = Some c -> isalpha c || char_eqb c (chr "_") = true ->
  (column l < column (_read_identifier l))%Z /\
  trailing l (_read_identifier l).
Proof.
  intros Hc Hs. rewrite read_identifier_run; cbv zeta.
  rewrite (rest_current _ Hc).
  pose proof (@run_head identifier_char c (rest (position_add 1 l))
                        (identifier_char_start _ Hs)) as Hrun.
  set (lexeme := run identifier_char _) in *.
  split; [simpl; lia|].
  eexists. split; reflexivity.
Qed.

Lemma read_string_trailing (quote : char) (l : Lexer) :
  (column l < column (_read_string quote l))%Z /\
  trailing l (_read_string quote l).
Proof.
  unfold _read_string; cbv zeta.
  set (l1 := column_add 1 (position_add 1 l)).
  pose proof (follows_nothing
                (follows_string_loop (fun _ => False) quote
                                     (remaining l1) [] l1)) as Ht.
  pose proof (string_loop_column quote (remaining l1) [] l1) as Hcol.
  destruct (string_loop quote (remaining l1) [] l1) as [value l2].
  simpl in Ht, Hcol. split.
  - destruct (current l2); simpl; lia.
  - destruct (current l2);
      (eexists; split; [simpl; rewrite Ht; reflexivity|reflexivity]).
Qed.

Lemma read_operator_leading (l l' : Lexer) :
  _read_operator l = Normal l' ->
  (column l < column l')%Z /\ leading l l'.
Proof.
  destruct (current l) as [c|] eqn:Hc;
    [|unfold _read_operator; rewrite Hc; discriminate].
  destruct (read_operator_cases _ Hc) as (l2 & -> & Hstep).
  intros H; injection H as <-.
  destruct Hstep as [(op & ty & _ & _ & _ & ->)|[(ty & _ & ->)|[_ ->]]];
    (split; [simpl; lia|]); (split; [reflexivity|]).
  - right. eexists. split; reflexivity.
  - right. eexists. split; reflexivity.
  - left. reflexivity.
Qed.
End Positions.

(** C2, as the specification words it, fails: on the input ":" the Colon
    token records column 1, where the lexeme starts, and the cursor is at
    column 2 once the lexeme is consumed. *)
Lemma colon_token_position_counterexample :
  ~ (forall (l l' : Lexer) (c : char) (t : Token.t),
       current l = Some c ->
       @dispatch latin1 c l = Normal l' ->
       tokens l' = tokens l ++ [t] ->
       (Token.line t, Token.column t) = (line l', column l')).
Proof.
  intros H.
  specialize (H (init (str ":")) _ _ _ eq_refl eq_refl eq_refl).
  discriminate H.
Qed.

(** C2, amended.  A token records the cursor's line and column at the
    moment it is appended.  For the number, identifier and string readers
    that is the position just after the lexeme; for punctuation, delimiters
    and operators it is the position at the start of the lexeme, the
    cursor advancing afterwards (an unknown character appends no token).
    Newline tokens are the subject of C3. *)
Theorem token_position_convention (U : Host) (UL : HostLaws U)
  (l l' : Lexer) (c : char) :
  current l = Some c -> c <> NL -> dispatch c l = Normal l' ->
  (column l < column l')%Z /\
  if isdigit c || (isalpha c || char_eqb c (chr "_"))
     || (char_eqb c DQUOTE || char_eqb c SQUOTE)
  then trailing l l'
  else leading l l'.
Proof.
  intros Hc Hn. unfold dispatch.
  destruct (char_eqb c NL) eqn:E; [apply N.eqb_eq in E; contradiction|].
  destruct (isdigit c) eqn:Hd; cbn [orb].
  { intros H. now apply read_number_trailing with c. }
  destruct (isalpha c || char_eqb c (chr "_")) eqn:Ha; cbn [orb].
  { intros H; injection H as <-.
    now apply read_identifier_trailing with c. }
  destruct (char_eqb c DQUOTE || char_eqb c SQUOTE) eqn:Hq.
  { intros H; injection H as <-. apply read_string_trailing. }
  repeat match goal with
    | |- context [if char_eqb c ?k then _ else _] =>
        destruct (char_eqb c k);
        [ intros H; injection H as <-;
          split; [simpl; lia|]; split; [reflexivity|];
          right; eexists; split; reflexivity
        | ]
    end.
  apply read_operator_leading.
Qed.

Lemma token_position_convention_witness :
  let l := init (str "(x") in
  current l = Some (chr "(") /\ chr "(" <> NL /\
  exists l',
    @dispatch latin1 (chr "(") l = Normal l' /\
    (column l < column l')%Z /\ leading l l'.
Proof.
  assert (Hn : chr "(" <> NL) by discriminate.
  split; [reflexivity|]. split; [exact Hn|].
  eexists. split; [reflexivity|].
  exact (@token_position_convention latin1 latin1_laws
           (init (str "(x")) _ (chr "(") eq_refl Hn eq_refl).
Defined.

(** ** Where the code leaves the specification *)

(** C1.  The superscript two, U+00B2, is a digit for [str.isdigit] and has
    no decimal value: the number reader consumes it and the conversion
    raises ValueError, so [tokenize] returns no token list for this input,
    with or without an end marker. *)
Theorem lex_superscript_two_raises :
  latin1_isdigit 178%N = true /\
  latin1_decimal 178%N = None /\
  @lex latin1 [178%N] =
    Some (Raised (ValueError [178%N])
            (mkLexer [178%N] 1 1 2 [] [0%Z] [DebugTokenizing 1])) /\
  returned (@lex latin1 [178%N]) = None.
Proof. repeat split. Qed.

(** C4.  The comment loop moves the position and leaves the column: after
    the two characters of "#a" the column is still 1 where the
    specification expects 3, and the end marker is recorded at column 1.
    The string reader counts a newline inside a literal as one more column:
    after a quote, a newline and a quote the line is still 1 where the
    specification expects 2. *)
Theorem comment_and_string_break_the_count :
  (let l := _skip_whitespace_and_comments (init (str "#a")) in
   consumed l = str "#a" /\ column l = 1%Z /\
   expected_column (consumed l) = 3%Z) /\
  returned (@lex latin1 (str "#a")) = Some [Token.mk EOF PyNone 1 1] /\
  (let l := _read_string DQUOTE (init [34; 10; 34]%N) in
   consumed l = [34; 10; 34]%N /\ line l = 1%Z /\ column l = 4%Z /\
   expected_line (consumed l) = 2%Z /\
   expected_column (consumed l) = 2%Z).
Proof. repeat split. Qed.

(** C5.  An unknown character is logged once and skipped, and still the run
    can abort: on "@" followed by the superscript two the warning for "@" is
    logged, no token is appended, and the conversion of the superscript two
    raises ValueError. *)
Theorem unknown_then_superscript_raises :
  @lex latin1 [64; 178]%N =
    Some (Raised (ValueError [178%N])
            (mkLexer [64; 178]%N 2 1 3 [] [0%Z]
                     [DebugTokenizing 2; WarningUnknownCharacter 64%N 1 1])).
Proof. reflexivity. Qed.

(** C8.  On "1" followed by the superscript two the number reader consumes
    both characters, one more than the run of decimal digits, and raises
    ValueError in place of appending an Integer token. *)
Theorem read_number_superscript_raises :
  run (fun c => match latin1_decimal c with Some _ => true | None => false end)
      [49; 178]%N = [49%N] /\
  @_read_number latin1 (init [49; 178]%N) =
    Raised (ValueError [49; 178]%N)
           (mkLexer [49; 178]%N 2 1 3 [] [0%Z] []).
Proof. split; reflexivity. Qed.

(** ** What holds all the same *)

(** When [tokenize] returns, the list ends with the end marker, which occurs
    nowhere else in it. *)
Lemma lex_returns_eof_once {U : Host} (src : list char) (l : Lexer) :
  lex src = Some (Normal l) ->
  exists before ln col,
    tokens l = before ++ [Token.mk EOF PyNone ln col] /\
    Forall (fun t => Token.type t <> EOF) before.
Proof.
  intros H. apply tokenize_returns in H as (l1 & F & Ht & _).
  destruct F as [_ _ _ (new & T & Fn)]. simpl in T. subst new.
  exists (tokens l1), (line l1), (column l1). split; [exact Ht|].
  eapply Forall_impl; [|exact Fn].
  intros t Hs He. unfold scanned in Hs. rewrite He in Hs. discriminate.
Qed.

(** A character that is no operator appends no token, is logged once, and
    the cursor moves past it by one. *)
Lemma unknown_character_skipped (l : Lexer) (c : char) :
  current l = Some c ->
  two_char_operator l = None ->
  ~ In c (map fst one_char_operators) ->
  _read_operator l =
  Normal (advance 1
            (logger_emit (WarningUnknownCharacter c (line l) (column l)) l)).
Proof.
  intros Hc H2 H1. unfold _read_operator. rewrite Hc, H2.
  destruct (one_char_operator_cases c l) as [(ty & Hin & _)|[_ ->]];
    [|reflexivity].
  elim H1. now apply (in_map fst) in Hin.
Qed.

Lemma run_skipn (p : char -> bool) (text : list char) :
  text = run p text ++ skipn (List.length (run p text)) text.
Proof.
  rewrite <- (firstn_skipn (List.length (run p text)) text) at 1.
  now rewrite run_firstn.
Qed.

Lemma rest_advance (n : nat) (l : Lexer) :
  rest (advance n l) = skipn n (rest l).
Proof. apply rest_position_add. Qed.

Lemma slice_rest (l : Lexer) (n : nat) :
  slice (source l) (position l) (position l + n) = firstn n (rest l).
Proof. unfold slice, rest. now rewrite Nat.add_comm, Nat.add_sub. Qed.

(** The number reader, loop by loop: the longest run of digits, then, when
    a dot follows, the dot and the longest run of digits after it; the
    literal converted is exactly what has been consumed. *)
Lemma read_number_spec {U : Host} (l : Lexer) :
  _read_number l =
  let whole := run isdigit (rest l) in
  let l1 := advance (List.length whole) l in
  let integer :=
    match py_int whole with
    | Some v => Normal (_add_token INTEGER (PyInt v) l1)
    | None => Raised (ValueError whole) l1
    end in
  match rest l1 with
  | c :: after =>
      if char_eqb c DOT_CHAR then
        let fraction := run isdigit after in
        let literal := whole ++ DOT_CHAR :: fraction in
        let l3 :=
          advance (List.length whole + 1 + List.length fraction) l in
        match py_float literal with
        | Some v => Normal (_add_token FLOAT (PyFloat v) l3)
        | None => Raised (ValueError literal) l3
        end
      else integer
  | [] => integer
  end.
Proof.
  unfold _read_number; cbv zeta.
  rewrite (advance_while_run isdigit l (le_n _)).
  set (whole := run isdigit (rest l)).
  set (l1 := advance (List.length whole) l).
  change (source l1) with (source l).
  change (position l1) with (position l + List.length whole).
  assert (Hw : slice (source l) (position l)
                     (position l + List.length whole) = whole)
    by apply slice_run.
  rewrite Hw.
  rewrite (current_rest l1).
  destruct (rest l1) as [|c after] eqn:Hrest; simpl hd_error; auto.
  destruct (char_eqb c DOT_CHAR) eqn:Hdot; auto.
  apply N.eqb_eq in Hdot. subst c.
  rewrite advance_one.
  rewrite (advance_while_run isdigit (advance 1 l1) (le_n _)).
  assert (Hafter : rest (advance 1 l1) = after).
  { rewrite rest_advance, Hrest. reflexivity. }
  rewrite Hafter.
  set (fraction := run isdigit after).
  unfold l1. rewrite !advance_advance, Nat.add_assoc.
  set (l3 := advance _ l).
  change (source l3) with (source l).
  change (position l3)
    with (position l + (List.length whole + 1 + List.length fraction)).
  rewrite slice_rest.
  assert (Hlit : firstn (List.length whole + 1 + List.length fraction)
                        (rest l) = whole ++ DOT_CHAR :: fraction).
  { rewrite (run_skipn isdigit (rest l)). fold whole.
    change (skipn (List.length whole) (rest l))
      with (skipn (List.length whole) (skipn (position l) (source l))).
    pose proof (rest_advance (List.length whole) l) as Hr.
    fold l1 in Hr. rewrite Hrest in Hr. unfold rest in Hr.
    rewrite <- Hr.
    rewrite firstn_app, <- Nat.add_assoc, Nat.add_comm, Nat.add_sub.
    rewrite firstn_all2 by lia.
    f_equal. simpl. f_equal. apply run_firstn. }
  rewrite Hlit. reflexivity.
Qed.

Lemma read_number_integer {U : Host} (l : Lexer) (whole : list char)
  (v : Z) :
  run isdigit (rest l) = whole ->
  hd_error (skipn (List.length whole) (rest l)) <> Some DOT_CHAR ->
  py_int whole = Some v ->
  _read_number l =
  Normal (_add_token INTEGER (PyInt v) (advance (List.length whole) l)).
Proof.
  intros Hw Hnext Hv. rewrite read_number_spec; cbv zeta.
  rewrite Hw, rest_advance, Hv.
  destruct (skipn (List.length whole) (rest l)) as [|c after]; auto.
  destruct (char_eqb c DOT_CHAR) eqn:E; auto.
  apply N.eqb_eq in E. subst c. now elim Hnext.
Qed.

Lemma read_number_float {U : Host} (l : Lexer)
  (whole after fraction : list char) (v : spec_float) :
  run isdigit (rest l) = whole ->
  skipn (List.length whole) (rest l) = DOT_CHAR :: after ->
  run isdigit after = fraction ->
  py_float (whole ++ DOT_CHAR :: fraction) = Some v ->
  _read_number l =
  Normal (_add_token FLOAT (PyFloat v)
            (advance (List.length whole + 1 + List.length fraction) l)).
Proof.
  intros Hw Hdot Hf Hv. rewrite read_number_spec; cbv zeta.
  rewrite Hw, rest_advance, Hdot, Hf.
  change (char_eqb DOT_CHAR DOT_CHAR) with true. cbv iota.
  now rewrite Hv.
Qed.

(** ** No other way to fail *)

Lemma run_Forall (p : char -> bool) (text : list char) :
  Forall (fun c => p c = true) (run p text).
Proof.
  induction text as [|c text IH]; simpl; auto.
  destruct (p c) eqn:E; auto.
Qed.

Lemma run_incl (p : char -> bool) (text : list char) :
  incl (run p text) text.
Proof.
  induction text as [|c text IH]; simpl; [easy|].
  destruct (p c); [|easy].
  intros x [->|Hx]; [now left|right; now apply IH].
Qed.

Lemma skipn_incl {A : Type} (n : nat) (s : list A) : incl (skipn n s) s.
Proof.
  revert n; induction s as [|a s IH]; intros [|n]; simpl; try easy.
  intros x Hx. right. now apply (IH n).
Qed.

Section Total.
Context {U : Host} {UL : HostLaws U}.

Lemma decimal_value_total (text : list char) (acc : Z) :
  Forall (fun c => decimal c <> None) text ->
  exists v, decimal_value acc text = Some v.
Proof.
  revert acc; induction text as [|c text IH]; intros acc H; simpl; eauto.
  inversion H as [|? ? Hc Ht]; subst.
  destruct (decimal c); [now apply IH|contradiction].
Qed.

Lemma split_dot_digits (whole fraction : list char) :
  Forall (fun c => isdigit c = true) whole ->
  split_dot (whole ++ DOT_CHAR :: fraction) = (whole, Some fraction).
Proof.
  induction 1 as [|c whole Hc Hw IH]; simpl; auto.
  destruct (char_eqb c DOT_CHAR) eqn:E.
  - apply N.eqb_eq in E. subst c.
    rewrite isdigit_ascii in Hc by reflexivity. discriminate.
  - now rewrite IH.
Qed.

Lemma run_digits_decimal (text part : list char) :
  digits_decimal text -> incl part text ->
  Forall (fun c => decimal c <> None) (run isdigit part).
Proof.
  intros Hd Hi. apply Forall_forall. intros c Hc.
  apply Hd.
  - apply Hi. now apply (run_incl isdigit part).
  - pose proof (run_Forall isdigit part) as F.
    rewrite Forall_forall in F. now apply F.
Qed.

Lemma run_length (p : char -> bool) (text : list char) :
  List.length (run p text) <= List.length text.
Proof.
  induction text as [|c text IH]; simpl; auto.
  destruct (p c); simpl; lia.
Qed.

Lemma read_number_returns (l : Lexer) (c : char) :
  digits_decimal (source l) -> within_int_limit (source l) ->
  current l = Some c -> isdigit c = true ->
  exists l', _read_number l = Normal l'.
Proof.
  intros Hd Hlim Hc Hdigit. rewrite read_number_spec; cbv zeta.
  assert (Hrest : incl (rest l) (source l)) by apply skipn_incl.
  pose proof (run_digits_decimal Hd Hrest) as Hwhole.
  pose proof (rest_current _ Hc) as Hcons.
  assert (Hne : run isdigit (rest l) <> []).
  { rewrite Hcons; simpl. now rewrite Hdigit. }
  set (whole := run isdigit (rest l)) in *.
  assert (Hlen : List.length whole <= List.length (source l)).
  { unfold whole. etransitivity; [apply run_length|].
    unfold rest. rewrite length_skipn. lia. }
  assert (Hint : exists v, py_int whole = Some v).
  { unfold py_int. destruct whole as [|d whole']; [contradiction|].
    replace ((0 <? int_max_str_digits)
             && (int_max_str_digits <? List.length (d :: whole')))
      with false; [now apply decimal_value_total|].
    symmetry. destruct Hlim as [H0|Hle].
    - now rewrite H0.
    - apply andb_false_iff. right. apply Nat.ltb_ge. lia. }
  destruct Hint as [v Hv]. rewrite Hv.
  destruct (rest (advance (List.length whole) l)) as [|d after] eqn:Hafter;
    eauto.
  destruct (char_eqb d DOT_CHAR); eauto.
  assert (Hfrac : Forall (fun c => decimal c <> None) (run isdigit after)).
  { apply (run_digits_decimal Hd). intros x Hx. apply Hrest.
    rewrite rest_advance in Hafter.
    apply (skipn_incl (List.length whole) (rest l)).
    rewrite Hafter. now right. }
  unfold py_float.
  rewrite split_dot_digits by apply run_Forall.
  destruct (decimal_value_total 0
              (proj2 (Forall_app _ _ _) (conj Hwhole Hfrac))) as [m Hm].
  destruct (whole ++ run isdigit after) eqn:E.
  - apply app_eq_nil in E as [E _]. contradiction.
  - rewrite Hm. eauto.
Qed.

Lemma dispatch_returns (l : Lexer) (c : char) :
  digits_decimal (source l) -> within_int_limit (source l) ->
  current l = Some c ->
  exists l', dispatch c l = Normal l'.
Proof.
  intros Hd Hlim Hc. unfold dispatch.
  destruct (char_eqb c NL); eauto.
  destruct (isdigit c) eqn:E; [now apply read_number_returns with c|].
  destruct (isalpha c || char_eqb c (chr "_")); eauto.
  destruct (char_eqb c DQUOTE || char_eqb c SQUOTE); eauto.
  repeat match goal with
    | |- context [if char_eqb c ?k then _ else _] =>
        destruct (char_eqb c k); eauto
    end.
  destruct (read_operator_cases _ Hc) as (l' & H & _). eauto.
Qed.

Lemma tokenize_loop_returns (fuel : nat) (l : Lexer) :
  digits_decimal (source l) -> within_int_limit (source l) ->
  remaining l <= fuel ->
  exists l', tokenize_loop fuel l = Some (Normal l').
Proof.
  revert l; induction fuel as [|fuel IH]; intros l Hd Hlim Hfuel; simpl.
  - destruct (current l) as [c|] eqn:Hc; eauto.
    rewrite (remaining_current _ Hc) in Hfuel. lia.
  - destruct (current l) as [c|] eqn:Hc; eauto.
    destruct (iteration l) as [l'|l'|e l'] eqn:Hi; eauto.
    + pose proof (iteration_progress _ Hi) as [Hs Hp].
      apply IH.
      * now rewrite Hs.
      * now rewrite Hs.
      * unfold remaining in *. rewrite Hs. lia.
    + exfalso. unfold iteration in Hi; cbv zeta in Hi.
      pose proof (follows_source
                    (follows_skip_whitespace_and_comments scanned l)) as Hs.
      destruct (current (_skip_whitespace_and_comments l)) as [d|] eqn:Hcd;
        [|discriminate].
      rewrite <- Hs in Hd, Hlim.
      destruct (dispatch_returns _ Hd Hlim Hcd) as [l2 H2].
      rewrite H2 in Hi. discriminate.
Qed.

(** On an input whose digits are all decimal digits, ASCII inputs among
    them, and which is not longer than the interpreter's limit on integer
    literals, [tokenize] returns. *)
Lemma lex_returns_when_digits_decimal (src : list char) :
  digits_decimal src -> within_int_limit src ->
  exists l, lex src = Some (Normal l).
Proof.
  intros Hd Hlim. unfold lex, tokenize; cbv zeta.
  destruct (@tokenize_loop_returns
              (remaining (logger_emit (DebugTokenizing
                                         (List.length (source (init src))))
                                      (init src)))
              (logger_emit (DebugTokenizing
                              (List.length (source (init src))))
                           (init src)) Hd Hlim (le_n _)) as [l' H].
  rewrite H. eauto.
Qed.
End Total.

Lemma ascii_digits_decimal {U : Host} {UL : HostLaws U}
  (text : list char) :
  Forall (fun c => (c < 128)%N) text -> digits_decimal text.
Proof.
  intros H c Hin Hd. rewrite Forall_forall in H. specialize (H c Hin).
  rewrite (isdigit_ascii H) in Hd. rewrite (decimal_ascii H), Hd.
  discriminate.
Qed.

(** ** The loop bounds are enough

    [advance_while_run], [skip_comment_run], [string_loop_value] and
    [tokenize_loop_fuel] show it for the other loops; here are the two loops
    whose result has no closed form: given a bound of at least the number of
    remaining characters, each stops where its own condition fails. *)

Lemma skip_loop_exit (fuel : nat) (l : Lexer) :
  remaining l <= fuel ->
  match current (skip_loop fuel l) with
  | Some c => char_in c [SPACE; TAB] = false /\ char_eqb c HASH = false
  | None => True
  end.
Proof.
  revert l; induction fuel as [|fuel IH]; intros l Hfuel; simpl.
  - destruct (current l) as [c|] eqn:Hc; auto.
    rewrite (remaining_current _ Hc) in Hfuel. lia.
  - destruct (current l) as [c|] eqn:Hc; [|now rewrite Hc].
    pose proof (remaining_current _ Hc) as Hr.
    destruct (char_eqb c SPACE || (char_eqb c TAB || false)) eqn:Hw.
    + apply IH. rewrite remaining_column_add. lia.
    + destruct (char_eqb c HASH) eqn:Hh.
      * apply IH. rewrite (skip_comment_run l (le_n _)).
        rewrite (rest_current _ Hc). simpl run.
        apply N.eqb_eq in Hh. subst c. simpl negb. cbv iota.
        rewrite remaining_position_add. simpl List.length. lia.
      * rewrite Hc. simpl. now rewrite Hw, Hh.
Qed.

Lemma string_loop_exit (quote : char) (fuel : nat) (value : list char)
  (l : Lexer) :
  remaining l <= fuel ->
  current (snd (string_loop quote fuel value l)) = None \/
  current (snd (string_loop quote fuel value l)) = Some quote.
Proof.
  revert value l; induction fuel as [|fuel IH]; intros value l Hfuel; simpl.
  - destruct (current l) as [c|] eqn:Hc; auto.
    rewrite (remaining_current _ Hc) in Hfuel. lia.
  - destruct (current l) as [c|] eqn:Hc; [|now left].
    pose proof (remaining_current _ Hc) as Hr.
    destruct (char_eqb c quote) eqn:Hq; simpl.
    + right. apply N.eqb_eq in Hq. now subst c.
    + destruct (char_eqb c BACKSLASH).
      * destruct (current (column_add 1 (position_add 1 l)));
          apply IH; rewrite remaining_column_add, remaining_position_add,
                      remaining_column_add; lia.
      * apply IH. rewrite remaining_column_add. lia.
Qed.

(** ** The specification's examples, run *)

Example lex_float :
  returned (@lex latin1 (str "3.14")) =
  Some [Token.mk FLOAT (PyFloat (S754_finite false 7070651414971679 (-51)))
                 1 5;
        Token.mk EOF PyNone 1 5].
Proof. reflexivity. Qed.

Example lex_trailing_dot :
  returned (@lex latin1 (str "3.")) =
  Some [Token.mk FLOAT (PyFloat (S754_finite false 6755399441055744 (-51)))
                 1 3;
        Token.mk EOF PyNone 1 3].
Proof. reflexivity. Qed.

Example lex_integer :
  returned (@lex latin1 (str "42")) =
  Some [Token.mk INTEGER (PyInt 42) 1 3; Token.mk EOF PyNone 1 3].
Proof. reflexivity. Qed.

Example lex_escape :
  returned (@lex latin1 [34; 97; 92; 110; 98; 34]%N) =
  Some [Token.mk STRING (PyStr [97; 10; 98]%N) 1 7;
        Token.mk EOF PyNone 1 7].
Proof. reflexivity. Qed.

Example lex_escaped_quote :
  returned (@lex latin1 [34; 97; 92; 34; 98; 34]%N) =
  Some [Token.mk STRING (PyStr [97; 34; 98]%N) 1 7;
        Token.mk EOF PyNone 1 7].
Proof. reflexivity. Qed.

Example lex_unterminated :
  returned (@lex latin1 [34; 97; 98]%N) =
  Some [Token.mk STRING (PyStr [97; 98]%N) 1 4; Token.mk EOF PyNone 1 4].
Proof. reflexivity. Qed.

Example lex_two_lines :
  returned (@lex latin1 (str "a" ++ [NL] ++ str "b")) =
  Some [Token.mk IDENTIFIER (PyStr (str "a")) 1 2;
        Token.mk NEWLINE (PyStr [NL]) 1 1;
        Token.mk IDENTIFIER (PyStr (str "b")) 2 2;
        Token.mk EOF PyNone 2 2].
Proof. reflexivity. Qed.

Example lex_comment :
  returned (@lex latin1 (str "# comment" ++ [NL] ++ str "x")) =
  Some [Token.mk NEWLINE (PyStr [NL]) 1 1;
        Token.mk IDENTIFIER (PyStr (str "x")) 2 2;
        Token.mk EOF PyNone 2 2].
Proof. reflexivity. Qed.

Example lex_unknown :
  @lex latin1 (str "@") =
  Some (Normal (mkLexer (str "@") 1 1 2 [Token.mk EOF PyNone 1 2] [0%Z]
                        [DebugTokenizing 1;
                         WarningUnknownCharacter (chr "@") 1 1;
                         DebugTokenized 1])).
Proof. reflexivity. Qed.

(** With CPython's default limit, a run of 4301 ASCII digits is consumed by
    the number reader and its conversion raises ValueError. *)
Example lex_long_integer_raises :
  exists l,
    @lex latin1 (repeat (chr "1") 4301) =
    Some (Raised (ValueError (repeat (chr "1") 4301)) l).
Proof. eexists. vm_compute. reflexivity. Qed.

(** ** Loops against any relation the cursor steps generate *)

Section Loops.
Variable R : Lexer -> Lexer -> Prop.
Hypothesis R_refl : forall l, R l l.
Hypothesis R_trans : forall l1 l2 l3, R l1 l2 -> R l2 l3 -> R l1 l3.
Hypothesis R_advance : forall l, R l (advance 1 l).
Hypothesis R_position : forall l, R l (position_add 1 l).

Lemma related_advance_while (p : char -> bool) (fuel : nat) (l : Lexer) :
  R l (advance_while p fuel l).
Proof.
  revert l; induction fuel as [|fuel IH]; intros l; simpl; auto.
  destruct (current l) as [c|]; auto.
  destruct (p c); auto.
  eapply R_trans; [apply R_advance|apply IH].
Qed.

Lemma related_skip_comment (fuel : nat) (l : Lexer) :
  R l (skip_comment fuel l).
Proof.
  revert l; induction fuel as [|fuel IH]; intros l; simpl; auto.
  destruct (current l) as [c|]; auto.
  destruct (negb (char_eqb c NL)); auto.
  eapply R_trans; [apply R_position|apply IH].
Qed.

Lemma related_skip_loop (fuel : nat) (l : Lexer) :
  R l (skip_loop fuel l).
Proof.
  revert l; induction fuel as [|fuel IH]; intros l; simpl; auto.
  destruct (current l) as [c|]; auto.
  destruct (char_eqb c SPACE || (char_eqb c TAB || false)).
  - eapply R_trans; [apply R_advance|apply IH].
  - destruct (char_eqb c HASH); auto.
    eapply R_trans; [apply related_skip_comment|apply IH].
Qed.

Lemma related_string_loop (quote : char) (fuel : nat) (value : list char)
  (l : Lexer) :
  R l (snd (string_loop quote fuel value l)).
Proof.
  revert value l; induction fuel as [|fuel IH]; intros value l; simpl; auto.
  destruct (current l) as [c|]; simpl; auto.
  destruct (negb (char_eqb c quote)); simpl; auto.
  destruct (char_eqb c BACKSLASH).
  - destruct (current (column_add 1 (position_add 1 l)));
      (eapply R_trans; [apply R_advance|]);
      (eapply R_trans; [apply (R_advance (advance 1 l))|apply IH]).
  - eapply R_trans; [apply R_advance|apply IH].
Qed.
End Loops.

(** ** Moving along a line *)

Lemma moves_refl (l : Lexer) : moves l l.
Proof.
  split; auto; try lia.
  - exists []. now rewrite app_nil_r.
  - exists []. now rewrite app_nil_r.
Qed.

Lemma moves_trans (l1 l2 l3 : Lexer) :
  moves l1 l2 -> moves l2 l3 -> moves l1 l3.
Proof.
  intros [S1 L1 P1 C1 (n1 & T1 & F1) (w1 & G1 & W1)]
         [S2 L2 P2 C2 (n2 & T2 & F2) (w2 & G2 & W2)].
  split; try congruence; try lia.
  - exists (n1 ++ n2). split; [now rewrite T2, T1, app_assoc|].
    apply Forall_app; split.
    + eapply Forall_impl; [|exact F1]. simpl. intros t (Ht & Hc & Hn).
      repeat split; auto; lia.
    + eapply Forall_impl; [|exact F2]. simpl. intros t (Ht & Hc & Hn).
      repeat split; auto; try congruence; lia.
  - exists (w1 ++ w2). split; [now rewrite G2, G1, app_assoc|].
    now apply Forall_app.
Qed.

Lemma moves_advance (n : nat) (l : Lexer) : moves l (advance n l).
Proof.
  split; simpl; auto; try lia.
  - exists []. now rewrite app_nil_r.
  - exists []. now rewrite app_nil_r.
Qed.

Lemma moves_position_add (n : nat) (l : Lexer) : moves l (position_add n l).
Proof.
  split; simpl; auto; try lia.
  - exists []. now rewrite app_nil_r.
  - exists []. now rewrite app_nil_r.
Qed.

Lemma moves_add_token (ty : TokenType) (v : Value) (l : Lexer) :
  ty <> NEWLINE -> moves l (_add_token ty v l).
Proof.
  intros Hty. split; simpl; auto; try lia.
  - eexists. split; [reflexivity|]. constructor; [|constructor].
    simpl. repeat split; try lia.
    unfold newline_token; simpl. destruct ty; congruence.
  - exists []. now rewrite app_nil_r.
Qed.

Lemma moves_warning (c : char) (ln col : Z) (l : Lexer) :
  moves l (logger_emit (WarningUnknownCharacter c ln col) l).
Proof.
  split; simpl; auto; try lia.
  - exists []. now rewrite app_nil_r.
  - eexists. split; [reflexivity|]. repeat constructor.
Qed.

Lemma moves_advance_while (p : char -> bool) (fuel : nat) (l : Lexer) :
  moves l (advance_while p fuel l).
Proof.
  apply related_advance_while;
    [exact moves_refl|exact moves_trans|exact (moves_advance 1)].
Qed.

Lemma moves_skip_whitespace_and_comments (l : Lexer) :
  moves l (_skip_whitespace_and_comments l).
Proof.
  unfold _skip_whitespace_and_comments.
  apply related_skip_loop;
    [exact moves_refl|exact moves_trans|exact (moves_advance 1)
    |exact (moves_position_add 1)].
Qed.

Lemma moves_string_loop (quote : char) (fuel : nat) (value : list char)
  (l : Lexer) :
  moves l (snd (string_loop quote fuel value l)).
Proof.
  apply related_string_loop;
    [exact moves_refl|exact moves_trans|exact (moves_advance 1)].
Qed.

Lemma keyword_not_newline (value : list char) :
  dict_get KEYWORDS value IDENTIFIER <> NEWLINE.
Proof.
  destruct (dict_get_In KEYWORDS value IDENTIFIER) as [->|H];
    [discriminate|].
  revert H; generalize (dict_get KEYWORDS value IDENTIFIER); intros ty H.
  unfold KEYWORDS in H; simpl in H.
  repeat (destruct H as [<-|H]; [discriminate|]). contradiction.
Qed.

Lemma moves_operator_step (c : char) (l l' : Lexer) :
  operator_step c l l' -> moves l l'.
Proof.
  intros [(op & ty & Hin & _ & _ & ->)|[(ty & Hin & ->)|[_ ->]]].
  - eapply moves_trans; [|apply moves_advance].
    apply moves_add_token.
    unfold two_char_operators in Hin; simpl in Hin.
    repeat (destruct Hin as [Hin|Hin];
            [inversion Hin; discriminate|]). contradiction.
  - eapply moves_trans; [|apply moves_advance].
    apply moves_add_token.
    unfold one_char_operators in Hin; simpl in Hin.
    repeat (destruct Hin as [Hin|Hin];
            [inversion Hin; discriminate|]). contradiction.
  - eapply moves_trans; [|apply moves_advance]. apply moves_warning.
Qed.

Section Moves.
Context {U : Host}.

Lemma moves_read_number (l : Lexer) :
  moves l (state_of (_read_number l)).
Proof.
  unfold _read_number; cbv zeta.
  set (l1 := advance_while isdigit (remaining l) l).
  assert (F1 : moves l l1) by apply moves_advance_while.
  destruct (match current l1 with
            | Some c => char_eqb c DOT_CHAR
            | None => false
            end).
  - set (l2 := column_add 1 (position_add 1 l1)).
    set (l3 := advance_while isdigit (remaining l2) l2).
    assert (F3 : moves l l3).
    { eapply moves_trans; [exact F1|].
      eapply moves_trans; [apply (moves_advance 1)|].
      apply moves_advance_while. }
    destruct (py_float _); simpl; auto.
    eapply moves_trans; [exact F3|]. now apply moves_add_token.
  - destruct (py_int _); simpl; auto.
    eapply moves_trans; [exact F1|]. now apply moves_add_token.
Qed.

Lemma moves_read_identifier (l : Lexer) : moves l (_read_identifier l).
Proof.
  unfold _read_identifier; cbv zeta.
  eapply moves_trans; [apply moves_advance_while|].
  apply moves_add_token, keyword_not_newline.
Qed.

Lemma moves_read_string (quote : char) (l : Lexer) :
  moves l (_read_string quote l).
Proof.
  unfold _read_string; cbv zeta.
  set (l1 := column_add 1 (position_add 1 l)).
  pose proof (moves_string_loop quote (remaining l1) [] l1) as F.
  destruct (string_loop quote (remaining l1) [] l1) as [value l2].
  simpl in F.
  eapply moves_trans; [apply (moves_advance 1)|].
  eapply moves_trans; [exact F|].
  eapply moves_trans; [|now apply moves_add_token].
  destruct (current l2); [apply (moves_advance 1)|apply moves_refl].
Qed.

Lemma moves_read_operator (l : Lexer) :
  moves l (state_of (_read_operator l)).
Proof.
  destruct (current l) as [c|] eqn:Hc.
  - destruct (read_operator_cases _ Hc) as (l' & -> & Hstep).
    now apply moves_operator_step with c.
  - unfold _read_operator. rewrite Hc. simpl. apply moves_refl.
Qed.

(** Every branch of the main loop but the newline branch stays on the
    line. *)
Lemma moves_dispatch (c : char) (l : Lexer) :
  char_eqb c NL = false -> moves l (state_of (dispatch c l)).
Proof.
  intros Hn. unfold dispatch. rewrite Hn.
  destruct (isdigit c); [apply moves_read_number|].
  destruct (isalpha c || char_eqb c (chr "_"));
    [apply moves_read_identifier|].
  destruct (char_eqb c DQUOTE || char_eqb c SQUOTE);
    [apply moves_read_string|].
  repeat match goal with
    | |- context [if char_eqb c ?k then _ else _] =>
        destruct (char_eqb c k);
        [ cbn [state_of]; unfold add_then_advance;
          (eapply moves_trans; [|apply moves_advance]);
          now apply moves_add_token
        | ]
    end.
  apply moves_read_operator.
Qed.
End Moves.

(** ** Lines and columns stay sound *)

Lemma newlines_app (a b : list Token.t) :
  newlines (a ++ b) = newlines a + newlines b.
Proof. unfold newlines. now rewrite filter_app, length_app. Qed.

Lemma newlines_none (new : list Token.t) :
  Forall (fun t => newline_token t = false) new -> newlines new = 0.
Proof.
  unfold newlines. induction 1 as [|t new Ht _ IH]; simpl; auto.
  now rewrite Ht.
Qed.

Lemma numbered_snoc (toks : list Token.t) (t : Token.t) :
  numbered toks ->
  Token.line t = (1 + Z.of_nat (newlines toks))%Z ->
  (1 <= Token.column t)%Z ->
  numbered (toks ++ [t]).
Proof.
  intros Hn Hl Hc before x after E.
  destruct after as [|a after'] using rev_ind.
  - apply app_inj_tail in E as [-> ->]. auto.
  - clear IHafter'.
    change (before ++ x :: after' ++ [a])
      with (before ++ (x :: after') ++ [a]) in E.
    rewrite app_assoc in E. apply app_inj_tail in E as [E _].
    now apply (Hn before x after').
Qed.

Lemma numbered_app (toks new : list Token.t) :
  numbered toks ->
  Forall (fun t => Token.line t = (1 + Z.of_nat (newlines toks))%Z /\
                   (1 <= Token.column t)%Z /\
                   newline_token t = false) new ->
  numbered (toks ++ new).
Proof.
  intros Hn Hnew. revert toks Hn Hnew.
  induction new as [|t new IH]; intros toks Hn Hnew.
  - now rewrite app_nil_r.
  - inversion Hnew as [|? ? (Hl & Hc & Hk) Hrest]; subst.
    change (toks ++ t :: new) with (toks ++ [t] ++ new).
    rewrite app_assoc. apply IH.
    + now apply numbered_snoc.
    + eapply Forall_impl; [|exact Hrest]. simpl.
      intros x (Hx & Hcx & Hkx). repeat split; auto.
      rewrite newlines_app. unfold newlines at 2. simpl.
      rewrite Hk. simpl. rewrite Nat.add_0_r. exact Hx.
Qed.

Lemma placed_init (src : list char) : placed (init src).
Proof.
  split; simpl; try lia; auto.
  intros [|b before] t after E; discriminate E.
Qed.

Lemma placed_logger_emit (r : LogRecord) (l : Lexer) :
  placed l -> placed (logger_emit r l).
Proof. intros [L C T]. split; auto. Qed.

Lemma placed_moves (l l' : Lexer) : placed l -> moves l l' -> placed l'.
Proof.
  intros [L C T] [S1 L1 P1 C1 (new & T1 & F1) _].
  assert (Hnone : newlines new = 0).
  { apply newlines_none. eapply Forall_impl; [|exact F1].
    simpl. tauto. }
  split.
  - rewrite L1, L, T1, newlines_app, Hnone. lia.
  - lia.
  - rewrite T1. apply numbered_app; [exact T|].
    eapply Forall_impl; [|exact F1]. simpl.
    intros t (Ht & Hc & Hk).
    split; [rewrite Ht; exact L|]. split; [lia|exact Hk].
Qed.

(** The newline branch of the main loop, lines 134-138. *)
Lemma placed_newline (l : Lexer) :
  placed l ->
  placed
    (let l1 := column_set 1 (line_add 1 (position_add 1 l)) in
     tokens_append
       (Token.mk NEWLINE (PyStr [NL]) (line l1 - 1) (column l1)) l1).
Proof.
  intros [L C T]. cbv zeta.
  split; unfold tokens_append, column_set, line_add, position_add;
    cbn [line column tokens position source].
  - rewrite newlines_app.
    change (newlines [Token.mk NEWLINE (PyStr [NL]) (line l + 1 - 1) 1])
      with 1.
    lia.
  - lia.
  - apply numbered_snoc; cbn [Token.line Token.column]; auto; lia.
Qed.

Section Placed.
Context {U : Host}.

Lemma placed_dispatch (c : char) (l : Lexer) :
  placed l -> placed (state_of (dispatch c l)).
Proof.
  intros Hp. destruct (char_eqb c NL) eqn:Hn.
  - unfold dispatch. rewrite Hn. now apply placed_newline.
  - eapply placed_moves; [exact Hp|now apply moves_dispatch].
Qed.

Lemma placed_iteration (l : Lexer) :
  placed l -> placed (state_of_control (iteration l)).
Proof.
  intros Hp. unfold iteration; cbv zeta.
  assert (H1 : placed (_skip_whitespace_and_comments l)).
  { eapply placed_moves; [exact Hp|].
    apply moves_skip_whitespace_and_comments. }
  destruct (current (_skip_whitespace_and_comments l)) as [c|];
    [|exact H1].
  pose proof (placed_dispatch c H1) as H2.
  destruct (dispatch c (_skip_whitespace_and_comments l)); exact H2.
Qed.

Lemma placed_tokenize_loop (fuel : nat) (l : Lexer) (c : completion) :
  placed l -> tokenize_loop fuel l = Some c -> placed (state_of c).
Proof.
  revert l; induction fuel as [|fuel IH]; intros l Hp; simpl.
  - destruct (current l); [discriminate|].
    intros H; injection H as <-. exact Hp.
  - destruct (current l); [|intros H; injection H as <-; exact Hp].
    pose proof (placed_iteration Hp) as Hi.
    destruct (iteration l) as [l'|l'|e l']; simpl in Hi.
    + now apply IH.
    + intros H; injection H as <-. exact Hi.
    + intros H; injection H as <-. exact Hi.
Qed.

Lemma placed_tokenize (l : Lexer) (c : completion) :
  placed l -> tokenize l = Some c -> placed (state_of c).
Proof.
  intros Hp. unfold tokenize; cbv zeta.
  set (l0 := logger_emit _ l).
  assert (H0 : placed l0) by now apply placed_logger_emit.
  destruct (tokenize_loop (remaining l0) l0) as [[l1|e l1]|] eqn:H;
    [| |discriminate].
  - apply (placed_tokenize_loop _ H0) in H. simpl in H.
    intros E; injection E as <-. simpl.
    apply placed_logger_emit.
    eapply placed_moves; [exact H|]. now apply moves_add_token.
  - apply (placed_tokenize_loop _ H0) in H.
    intros E; injection E as <-. exact H.
Qed.
End Placed.

(** ** The string reader in closed form *)

Lemma string_loop_spec (quote : char) (fuel : nat) (value : list char)
  (l : Lexer) :
  remaining l <= fuel ->
  string_loop quote fuel value l =
  (value ++ string_value quote (rest l),
   advance (string_extent quote (rest l)) l).
Proof.
  revert value l; induction fuel as [|fuel IH]; intros value l Hfuel.
  - assert (E : rest l = []).
    { apply length_zero_iff_nil. rewrite <- remaining_rest. lia. }
    rewrite E; simpl. now rewrite app_nil_r, advance_zero.
  - simpl. destruct (current l) as [c|] eqn:Hc.
    + rewrite (rest_current _ Hc). simpl string_value. simpl string_extent.
      pose proof (remaining_current _ Hc) as Hr.
      destruct (char_eqb c quote); simpl;
        [now rewrite app_nil_r, advance_zero|].
      destruct (char_eqb c BACKSLASH).
      * rewrite current_column_add.
        destruct (current (position_add 1 l)) as [e|] eqn:He.
        -- rewrite IH.
           ++ rewrite rest_column_add, (rest_current _ He).
              rewrite escape_spec, <- app_assoc.
              rewrite !advance_one, !advance_advance. reflexivity.
           ++ rewrite remaining_column_add, remaining_position_add.
              rewrite remaining_column_add. lia.
        -- rewrite IH.
           ++ rewrite rest_column_add, rest_position_add, rest_column_add.
              rewrite (rest_end _ He). simpl.
              rewrite !advance_one, !advance_advance.
              now rewrite app_nil_r.
           ++ rewrite remaining_column_add, remaining_position_add.
              rewrite remaining_column_add. lia.
      * rewrite IH.
        -- rewrite rest_column_add, <- app_assoc.
           rewrite advance_one, advance_advance. reflexivity.
        -- rewrite remaining_column_add. lia.
    + rewrite (rest_end _ Hc). simpl. now rewrite app_nil_r, advance_zero.
Qed.

Lemma read_string_spec (quote : char) (l : Lexer) :
  _read_string quote l =
  let text := rest (advance 1 l) in
  let l2 := advance (1 + string_extent quote text) l in
  _add_token STRING (PyStr (string_value quote text))
    (match current l2 with
     | Some _ => advance 1 l2
     | None => l2
     end).
Proof.
  unfold _read_string; cbv zeta.
  rewrite advance_one, (string_loop_spec quote [] (advance 1 l) (le_n _)).
  rewrite advance_advance. reflexivity.
Qed.

Lemma string_extent_bound (quote : char) (text : list char) :
  string_extent quote text <= S (List.length text).
Proof.
  assert (H : forall n text, List.length text <= n ->
                             string_extent quote text <= S (List.length text)).
  { induction n as [|n IH]; intros [|c t] Hl; simpl in *; try lia.
    destruct (char_eqb c quote); [lia|].
    destruct (char_eqb c BACKSLASH).
    - destruct t as [|e t']; [lia|].
      specialize (IH t'). simpl in *. lia.
    - specialize (IH t). lia. }
  now apply (H (List.length text)).
Qed.

(** ** How far the cursor goes, and how many tokens there are *)

Lemma rest_length (l : Lexer) :
  List.length (rest l) = List.length (source l) - position l.
Proof. unfold rest. apply length_skipn. Qed.

Lemma skip_loop_inside (fuel : nat) (l : Lexer) :
  position (skip_loop fuel l) <=
  Nat.max (position l) (List.length (source l)).
Proof.
  revert l; induction fuel as [|fuel IH]; intros l; simpl; [lia|].
  destruct (current l) as [c|] eqn:Hc; [|lia].
  pose proof (nth_error_Some (source l) (position l)) as Hlt.
  unfold current in Hc. rewrite Hc in Hlt.
  assert (Hpos : position l < List.length (source l))
    by (apply Hlt; discriminate).
  destruct (char_eqb c SPACE || (char_eqb c TAB || false)).
  - specialize (IH (column_add 1 (position_add 1 l))). simpl in IH. lia.
  - destruct (char_eqb c HASH); [|lia].
    specialize (IH (skip_comment (remaining l) l)).
    rewrite (skip_comment_run l (le_n _)) in *.
    pose proof (run_length (fun c => negb (char_eqb c NL)) (rest l)) as Hr.
    rewrite rest_length in Hr. simpl in IH. lia.
Qed.

Section Bounds.
Context {U : Host}.

Lemma dispatch_inside (c : char) (l : Lexer) :
  current l = Some c ->
  position (state_of (dispatch c l)) <= List.length (source l) + 1.
Proof.
  intros Hc.
  pose proof (nth_error_Some (source l) (position l)) as Hlt.
  unfold current in Hc. rewrite Hc in Hlt. fold (current l) in Hc.
  assert (Hpos : position l < List.length (source l))
    by (apply Hlt; discriminate).
  clear Hlt. unfold dispatch.
  destruct (char_eqb c NL); [simpl; lia|].
  destruct (isdigit c).
  { rewrite read_number_spec; cbv zeta.
    pose proof (run_skipn isdigit (rest l)) as Hsplit.
    pose proof (run_length isdigit (rest l)) as Hrun.
    rewrite rest_length in Hrun.
    set (whole := run isdigit (rest l)) in *.
    assert (Hint :
      position
        (state_of
           match py_int whole with
           | Some v =>
               Normal (_add_token INTEGER (PyInt v)
                         (advance (List.length whole) l))
           | None => Raised (ValueError whole)
                            (advance (List.length whole) l)
           end) <= List.length (source l) + 1).
    { destruct (py_int whole); simpl; lia. }
    rewrite rest_advance.
    destruct (skipn (List.length whole) (rest l)) as [|d after] eqn:Hafter;
      [exact Hint|].
    destruct (char_eqb d DOT_CHAR); [|exact Hint].
    pose proof (run_length isdigit after) as Hfrac.
    apply (f_equal (@List.length char)) in Hsplit.
    rewrite length_app, rest_length in Hsplit. simpl in Hsplit.
    destruct (py_float _); simpl; lia. }
  destruct (isalpha c || char_eqb c (chr "_")).
  { rewrite read_identifier_run; cbv zeta.
    pose proof (run_length identifier_char (rest l)) as Hrun.
    rewrite rest_length in Hrun. simpl. lia. }
  destruct (char_eqb c DQUOTE || char_eqb c SQUOTE).
  { rewrite read_string_spec; cbv zeta.
    pose proof (string_extent_bound c (rest (advance 1 l))) as Hext.
    assert (Htext : List.length (rest (advance 1 l))
                    = List.length (source l) - position l - 1)
      by (rewrite rest_advance, length_skipn, rest_length; reflexivity).
    rewrite Htext in Hext.
    set (n := string_extent c (rest (advance 1 l))) in *.
    destruct (current (advance (1 + n) l)) as [d|] eqn:Hd.
    - unfold current in Hd.
      assert (position (advance (1 + n) l)
              < List.length (source (advance (1 + n) l)))
        by (apply nth_error_Some; congruence).
      simpl in *. lia.
    - simpl. lia. }
  repeat match goal with
    | |- context [if char_eqb c ?k then _ else _] =>
        destruct (char_eqb c k); [simpl; lia|]
    end.
  destruct (read_operator_cases _ Hc)
    as (l' & -> & [(op & ty & _ & Hlong & _ & ->)|[(ty & _ & ->)|[_ ->]]]);
    simpl; lia.
Qed.

(** One pass through [dispatch] appends at most one token. *)
Lemma dispatch_one_token (c : char) (l : Lexer) :
  current l = Some c ->
  List.length (tokens (state_of (dispatch c l))) <=
  S (List.length (tokens l)).
Proof.
  intros Hc. unfold dispatch.
  destruct (char_eqb c NL); [simpl; rewrite length_app; simpl; lia|].
  destruct (isdigit c).
  { rewrite read_number_spec; cbv zeta.
    destruct (rest (advance _ l)) as [|d after].
    - destruct (py_int _); simpl; rewrite ?length_app; simpl; lia.
    - destruct (char_eqb d DOT_CHAR).
      + destruct (py_float _); simpl; rewrite ?length_app; simpl; lia.
      + destruct (py_int _); simpl; rewrite ?length_app; simpl; lia. }
  destruct (isalpha c || char_eqb c (chr "_")).
  { rewrite read_identifier_run; cbv zeta.
    simpl. rewrite length_app; simpl; lia. }
  destruct (char_eqb c DQUOTE || char_eqb c SQUOTE).
  { rewrite read_string_spec; cbv zeta.
    destruct (current (advance _ l));
      simpl; rewrite length_app; simpl; lia. }
  repeat match goal with
    | |- context [if char_eqb c ?k then _ else _] =>
        destruct (char_eqb c k);
        [simpl; rewrite length_app; simpl; lia|]
    end.
  destruct (read_operator_cases _ Hc)
    as (l' & -> & [(op & ty & _ & _ & _ & ->)|[(ty & _ & ->)|[_ ->]]]);
    simpl; rewrite ?length_app; simpl; lia.
Qed.

(** The main loop leaves only when nothing is left to read. *)
Lemma tokenize_loop_end (fuel : nat) (l l' : Lexer) :
  tokenize_loop fuel l = Some (Normal l') -> current l' = None.
Proof.
  revert l; induction fuel as [|fuel IH]; intros l; simpl.
  - destruct (current l) eqn:Hc; [discriminate|].
    intros H; injection H as <-. exact Hc.
  - destruct (current l) as [c0|] eqn:Hc;
      [|intros H; injection H as <-; exact Hc].
    unfold iteration; cbv zeta.
    destruct (current (_skip_whitespace_and_comments l)) as [c|] eqn:Hs.
    + destruct (dispatch c _); [apply IH|discriminate].
    + intros H; injection H as <-. exact Hs.
Qed.

Lemma iteration_inside (l : Lexer) :
  position l <= List.length (source l) + 1 ->
  position (state_of_control (iteration l)) <= List.length (source l) + 1.
Proof.
  intros Hl. unfold iteration; cbv zeta.
  pose proof (skip_loop_inside (remaining l) l) as Hs.
  fold (_skip_whitespace_and_comments l) in Hs.
  pose proof (follows_source
                (follows_skip_whitespace_and_comments scanned l)) as Hsrc.
  destruct (current (_skip_whitespace_and_comments l)) as [c|] eqn:Hc.
  - pose proof (dispatch_inside _ Hc) as Hd. rewrite Hsrc in Hd.
    destruct (dispatch c _); simpl in *; lia.
  - simpl. lia.
Qed.

Lemma tokenize_loop_inside (fuel : nat) (l : Lexer) (c : completion) :
  position l <= List.length (source l) + 1 ->
  tokenize_loop fuel l = Some c ->
  source (state_of c) = source l /\
  position (state_of c) <= List.length (source l) + 1.
Proof.
  revert l; induction fuel as [|fuel IH]; intros l Hl; simpl.
  - destruct (current l); [discriminate|].
    intros H; injection H as <-. auto.
  - destruct (current l); [|intros H; injection H as <-; auto].
    pose proof (iteration_inside l Hl) as Hi.
    pose proof (follows_source (follows_iteration l)) as Hs.
    destruct (iteration l) as [l'|l'|e l']; simpl in Hi, Hs.
    + intros H. rewrite <- Hs in Hi. destruct (IH _ Hi H) as [H1 H2].
      rewrite Hs in *. split; congruence.
    + intros H; injection H as <-. auto.
    + intros H; injection H as <-. auto.
Qed.
End Bounds.

Section Count.
Context {U : Host} {UL : HostLaws U}.

Lemma iteration_counted (l l' : Lexer) :
  iteration l = Continue l' ->
  List.length (tokens l) <= Nat.min (position l) (List.length (source l)) ->
  List.length (tokens l') <=
  Nat.min (position l') (List.length (source l')).
Proof.
  unfold iteration; cbv zeta. intros Hi Hcount.
  pose proof (follows_skip_whitespace_and_comments (fun _ => False) l)
    as Fs.
  pose proof (follows_nothing Fs) as Ht.
  destruct Fs as [Hsrc _ Hpos _].
  set (l1 := _skip_whitespace_and_comments l) in *.
  destruct (current l1) as [c|] eqn:Hc; [|discriminate].
  pose proof (dispatch_one_token _ Hc) as Hone.
  pose proof (dispatch_progress _ Hc) as Hprog.
  pose proof (follows_source (follows_dispatch c l1)) as Hsrc2.
  assert (Hlt : position l1 < List.length (source l1))
    by (apply nth_error_Some; unfold current in Hc; congruence).
  destruct (dispatch c l1) as [l2|e l2]; [|discriminate].
  injection Hi as <-. cbn [state_of] in *.
  rewrite Hsrc2, Hsrc. rewrite Ht in Hone. rewrite Hsrc in Hlt. lia.
Qed.

Lemma tokenize_loop_counted (fuel : nat) (l l' : Lexer) :
  tokenize_loop fuel l = Some (Normal l') ->
  List.length (tokens l) <= Nat.min (position l) (List.length (source l)) ->
  List.length (tokens l') <= List.length (source l').
Proof.
  revert l; induction fuel as [|fuel IH]; intros l; simpl.
  - destruct (current l); [discriminate|].
    intros H; injection H as <-. lia.
  - destruct (current l) as [c0|]; [|intros H; injection H as <-; lia].
    destruct (iteration l) as [l1|l1|e l1] eqn:Hi; [| |discriminate].
    + intros H Hc. apply (IH _ H). now apply (iteration_counted l).
    + intros H Hc; injection H as <-.
      unfold iteration in Hi; cbv zeta in Hi.
      pose proof (follows_skip_whitespace_and_comments (fun _ => False) l)
        as Fs.
      pose proof (follows_nothing Fs) as Ht.
      destruct Fs as [Hsrc _ Hpos _].
      destruct (current (_skip_whitespace_and_comments l));
        [destruct (dispatch _ _); discriminate|].
      injection Hi as <-. rewrite Hsrc, Ht. lia.
Qed.
End Count.

(** ** Further properties of the lexer *)

(** X1.  Every pass through the body of the main loop that goes on to the
    next leaves the source text as it is and moves the cursor forward by at
    least one character; so [tokenize], from any state of the lexer, ends:
    it returns or it raises. *)
Theorem main_loop_advances_and_ends (U : Host) (UL : HostLaws U) :
  (forall l l', iteration l = Continue l' ->
                source l' = source l /\ position l < position l') /\
  (forall l, exists c, tokenize l = Some c).
Proof.
  split.
  - intros l l'. apply iteration_progress.
  - apply tokenize_enough_fuel.
Qed.

Lemma main_loop_advances_and_ends_witness :
  let l := init (str "x = 1") in
  @iteration latin1 l = Continue (@_read_identifier latin1 l) /\
  source (@_read_identifier latin1 l) = source l /\
  position l < position (@_read_identifier latin1 l).
Proof.
  split; [reflexivity|].
  apply (proj1 (@main_loop_advances_and_ends latin1 latin1_laws)
               (init (str "x = 1"))).
  reflexivity.
Defined.

(** X2.  When [tokenize] returns, nothing is left to read, the last token is
    the end marker with no value, recorded at the final line and column, and
    no token before it is an end marker or of kind Symbol, Whitespace,
    Comment, Indent or Dedent: comments and blanks leave no token. *)
Theorem returned_tokens_end_with_eof (U : Host) (src : list char)
  (l : Lexer) :
  lex src = Some (Normal l) ->
  current l = None /\
  exists before,
    tokens l = before ++ [Token.mk EOF PyNone (line l) (column l)] /\
    Forall scanned before.
Proof.
  unfold lex, tokenize; cbv zeta.
  set (l0 := logger_emit _ (init src)).
  destruct (tokenize_loop (remaining l0) l0) as [[l1|e l1]|] eqn:H;
    try discriminate.
  intros E; injection E as <-. split.
  - apply tokenize_loop_end in H. exact H.
  - apply follows_tokenize_loop in H.
    destruct H as [_ _ _ (new & T & F)]. simpl in T.
    exists new. split; [|exact F]. simpl. now rewrite T.
Qed.

Lemma returned_tokens_end_with_eof_witness :
  exists l,
    @lex latin1 (str "a # b") = Some (Normal l) /\
    current l = None /\
    exists before,
      tokens l = before ++ [Token.mk EOF PyNone (line l) (column l)] /\
      Forall scanned before.
Proof.
  eexists. split; [vm_compute; reflexivity|].
  apply (@returned_tokens_end_with_eof latin1 (str "a # b")).
  vm_compute; reflexivity.
Defined.

(** X3.  [tokenize] is not idempotent on the object: called again on a
    lexer whose [tokenize] has returned, it reads nothing, returns again,
    and the token list has one more end marker at its end. *)
Theorem tokenize_twice_appends_second_eof (U : Host) (l l1 : Lexer) :
  tokenize l = Some (Normal l1) ->
  exists l2,
    tokenize l1 = Some (Normal l2) /\
    tokens l2 = tokens l1 ++ [Token.mk EOF PyNone (line l1) (column l1)] /\
    position l2 = position l1.
Proof.
  intros H.
  assert (Hend : current l1 = None).
  { unfold tokenize in H; cbv zeta in H.
    set (l0 := logger_emit _ l) in H.
    destruct (tokenize_loop (remaining l0) l0) as [[l'|e l']|] eqn:Hl;
      try discriminate.
    injection H as <-. apply tokenize_loop_end in Hl. exact Hl. }
  unfold tokenize; cbv zeta.
  set (l0 := logger_emit _ l1).
  assert (H0 : current l0 = None) by exact Hend.
  assert (Hloop : tokenize_loop (remaining l0) l0 = Some (Normal l0)).
  { destruct (remaining l0); simpl; now rewrite H0. }
  rewrite Hloop. eexists. split; [reflexivity|]. split; reflexivity.
Qed.

Lemma tokenize_twice_appends_second_eof_witness :
  exists l1 l2,
    @tokenize latin1 (init (str "a")) = Some (Normal l1) /\
    @tokenize latin1 l1 = Some (Normal l2) /\
    tokens l2 = tokens l1 ++ [Token.mk EOF PyNone (line l1) (column l1)] /\
    position l2 = position l1.
Proof.
  assert (H1 : exists l1,
             @tokenize latin1 (init (str "a")) = Some (Normal l1))
    by (eexists; vm_compute; reflexivity).
  destruct H1 as [l1 H1]. exists l1.
  destruct (@tokenize_twice_appends_second_eof latin1 (init (str "a")) l1 H1)
    as (l2 & H).
  exists l2. split; [exact H1|exact H].
Defined.

(** X4.  [tokenize] returns, without raising, on every input in which each
    character that [str.isdigit] accepts is a decimal digit and which is no
    longer than the interpreter's limit on integer literals (or there is no
    limit); every ASCII text satisfies the first condition. *)
Theorem tokenize_returns_on_decimal_digits (U : Host) (UL : HostLaws U) :
  (forall src, digits_decimal src -> within_int_limit src ->
               exists l, lex src = Some (Normal l)) /\
  (forall src, Forall (fun c => (c < 128)%N) src -> digits_decimal src).
Proof.
  split.
  - intros src. apply lex_returns_when_digits_decimal.
  - intros src. apply ascii_digits_decimal.
Qed.

Lemma tokenize_returns_on_decimal_digits_witness :
  Forall (fun c => (c < 128)%N) (str "n = 42 ;") /\
  @within_int_limit latin1 (str "n = 42 ;") /\
  exists l, @lex latin1 (str "n = 42 ;") = Some (Normal l).
Proof.
  assert (Ha : Forall (fun c => (c < 128)%N) (str "n = 42 ;"))
    by (repeat constructor).
  assert (Hw : @within_int_limit latin1 (str "n = 42 ;"))
    by (right; apply Nat.leb_le; vm_compute; reflexivity).
  split; [exact Ha|]. split; [exact Hw|].
  apply (proj1 (@tokenize_returns_on_decimal_digits latin1 latin1_laws)).
  - apply (proj2 (@tokenize_returns_on_decimal_digits latin1 latin1_laws)).
    exact Ha.
  - exact Hw.
Defined.



(** X7.  In every state [tokenize] ends in, returning or raising, the line
    counter is one more than the number of Newline tokens in the list, each
    token's line is one more than the number of Newline tokens before it (so
    lines start at 1 and never decrease along the list), each token's column
    is at least 1, and the column counter is between 1 and one more than the
    position. *)
Theorem token_lines_count_newlines (U : Host) (src : list char)
  (c : completion) :
  lex src = Some c -> placed (state_of c).
Proof.
  apply placed_tokenize, placed_init.
Qed.

Lemma token_lines_count_newlines_witness :
  exists c,
    @lex latin1 (str "a" ++ [NL] ++ str "b") = Some c /\
    placed (state_of c).
Proof.
  eexists. split; [vm_compute; reflexivity|].
  apply (@token_lines_count_newlines latin1 (str "a" ++ [NL] ++ str "b")).
  vm_compute; reflexivity.
Defined.

(** X8.  When [tokenize] returns, the source text is the one it was given
    and the cursor is at its end or one position past it, never before and
    never further. *)
Theorem cursor_ends_at_the_end (U : Host) (src : list char) (l : Lexer) :
  lex src = Some (Normal l) ->
  source l = src /\
  List.length src <= position l <= List.length src + 1.
Proof.
  unfold lex, tokenize; cbv zeta.
  set (l0 := logger_emit _ (init src)).
  destruct (tokenize_loop (remaining l0) l0) as [[l1|e l1]|] eqn:H;
    try discriminate.
  intros E; injection E as <-.
  assert (H0 : position l0 <= List.length (source l0) + 1) by (simpl; lia).
  destruct (tokenize_loop_inside _ _ H0 H) as [Hs Hp].
  apply tokenize_loop_end in H.
  simpl in *. split; [exact Hs|]. split; [|exact Hp].
  unfold current in H. apply nth_error_None in H. now rewrite Hs in H.
Qed.

Lemma cursor_ends_at_the_end_witness :
  exists l,
    @lex latin1 [34; 92]%N = Some (Normal l) /\
    source l = [34; 92]%N /\
    List.length [34; 92]%N <= position l <= List.length [34; 92]%N + 1.
Proof.
  eexists. split; [vm_compute; reflexivity|].
  apply (@cursor_ends_at_the_end latin1 [34; 92]%N).
  vm_compute; reflexivity.
Defined.

(** X9.  The list [tokenize] returns has at most one token for each
    character of the input, and the end marker. *)
Theorem token_count_bound (U : Host) (UL : HostLaws U) (src : list char)
  (l : Lexer) :
  lex src = Some (Normal l) ->
  List.length (tokens l) <= List.length src + 1.
Proof.
  unfold lex, tokenize; cbv zeta.
  set (l0 := logger_emit _ (init src)).
  destruct (tokenize_loop (remaining l0) l0) as [[l1|e l1]|] eqn:H;
    try discriminate.
  intros E; injection E as <-.
  pose proof (follows_source (follows_tokenize_loop _ _ H)) as Hs.
  apply tokenize_loop_counted in H; [|simpl; lia].
  simpl in *. rewrite length_app. simpl. rewrite Hs in H. lia.
Qed.

Lemma token_count_bound_witness :
  exists l,
    @lex latin1 (str "a+b") = Some (Normal l) /\
    List.length (tokens l) <= List.length (str "a+b") + 1.
Proof.
  eexists. split; [vm_compute; reflexivity|].
  apply (@token_count_bound latin1 latin1_laws (str "a+b")).
  vm_compute; reflexivity.
Defined.







(** ** Blanks and comments *)

Lemma skip_loop_end (fuel : nat) (l : Lexer) :
  current l = None -> skip_loop fuel l = l.
Proof. intros H. destruct fuel; simpl; now rewrite ?H. Qed.

Lemma current_head (l : Lexer) (c : char) (text : list char) :
  rest l = c :: text -> current l = Some c.
Proof. intros H. now rewrite current_rest, H. Qed.

Lemma skip_loop_blanks (ws tail : list char) (fuel : nat) (l : Lexer) :
  rest l = ws ++ tail -> Forall blank ws ->
  skip_loop (List.length ws + fuel) l =
  skip_loop fuel (advance (List.length ws) l).
Proof.
  revert l; induction ws as [|c ws IH]; intros l Hrest Hws.
  - simpl. now rewrite advance_zero.
  - inversion Hws as [|? ? Hc Hws']; subst.
    cbn [List.length Nat.add skip_loop].
    rewrite (current_head l Hrest).
    assert (Hin : char_in c [SPACE; TAB] = true)
      by (destruct Hc as [->| ->]; reflexivity).
    rewrite Hin, advance_one, IH; auto.
    + now rewrite advance_advance.
    + rewrite rest_advance, Hrest. reflexivity.
Qed.

(** A comment that runs to the end of the input, after blanks: everything
    is skipped, the column counting the blanks only. *)
Lemma skip_to_the_end (ws body : list char) (l : Lexer) :
  Forall blank ws -> ~ In NL body ->
  (rest l = ws ->
   _skip_whitespace_and_comments l = advance (List.length ws) l) /\
  (rest l = ws ++ HASH :: body ->
   _skip_whitespace_and_comments l =
   position_add (S (List.length body)) (advance (List.length ws) l)).
Proof.
  intros Hws Hbody. unfold _skip_whitespace_and_comments. split.
  - intros Hrest. rewrite remaining_rest, Hrest.
    replace (skip_loop (List.length ws) l)
      with (skip_loop (List.length ws + 0) l)
      by (now rewrite Nat.add_0_r).
    rewrite (@skip_loop_blanks ws [] 0 l); [reflexivity| |exact Hws].
    now rewrite app_nil_r.
  - intros Hrest. rewrite remaining_rest, Hrest, length_app.
    rewrite (@skip_loop_blanks ws (HASH :: body) _ l Hrest Hws).
    set (l1 := advance (List.length ws) l).
    assert (H1 : rest l1 = HASH :: body).
    { unfold l1. rewrite rest_advance, Hrest, skipn_app, skipn_all.
      now rewrite Nat.sub_diag. }
    cbn [List.length skip_loop]. rewrite (current_head l1 H1).
    change (char_in HASH [SPACE; TAB]) with false.
    change (char_eqb HASH HASH) with true. cbv iota.
    rewrite (skip_comment_run l1 (le_n _)), H1.
    assert (Hrun : run (fun c => negb (char_eqb c NL)) (HASH :: body)
                   = HASH :: body).
    { apply run_all. simpl. apply forallb_forall. intros c Hc.
      apply negb_true_iff, N.eqb_neq. intros ->. contradiction. }
    rewrite Hrun. apply skip_loop_end.
    rewrite current_rest, rest_position_add, H1.
    cbn [skipn]. now rewrite skipn_all.
Qed.

Lemma tokenize_loop_break {U : Host} (fuel : nat) (l : Lexer) :
  remaining l <= fuel ->
  current (_skip_whitespace_and_comments l) = None ->
  tokenize_loop fuel l = Some (Normal (_skip_whitespace_and_comments l)).
Proof.
  intros Hfuel Hend. destruct (current l) as [c|] eqn:Hc.
  - destruct fuel as [|fuel];
      [rewrite (remaining_current _ Hc) in Hfuel; lia|].
    simpl. rewrite Hc. unfold iteration; cbv zeta. now rewrite Hend.
  - unfold _skip_whitespace_and_comments.
    rewrite (skip_loop_end _ l Hc). destruct fuel; simpl; now rewrite Hc.
Qed.

(** X11.  An input made of spaces and tabs only, or of spaces and tabs
    followed by a comment that runs to the end of the input, gives the end
    marker alone, on line 1, at the column one past the blanks: the
    characters of the comment are not counted. *)
Theorem blank_and_comment_input (U : Host) (ws body : list char) :
  Forall blank ws -> ~ In NL body ->
  returned (lex ws) =
    Some [Token.mk EOF PyNone 1 (1 + Z.of_nat (List.length ws))] /\
  returned (lex (ws ++ HASH :: body)) =
    Some [Token.mk EOF PyNone 1 (1 + Z.of_nat (List.length ws))].
Proof.
  intros Hws Hbody. split.
  - unfold lex, tokenize; cbv zeta.
    set (l0 := logger_emit _ (init ws)).
    destruct (@skip_to_the_end ws body l0 Hws Hbody) as [Hskip _].
    specialize (Hskip eq_refl).
    rewrite tokenize_loop_break; [|apply le_n|].
    + rewrite Hskip. reflexivity.
    + rewrite Hskip, current_rest, rest_advance.
      change (rest l0) with ws. now rewrite skipn_all.
  - unfold lex, tokenize; cbv zeta.
    set (l0 := logger_emit _ (init (ws ++ HASH :: body))).
    destruct (@skip_to_the_end ws body l0 Hws Hbody) as [_ Hskip].
    specialize (Hskip eq_refl).
    rewrite tokenize_loop_break; [|apply le_n|].
    + rewrite Hskip. reflexivity.
    + rewrite Hskip, current_rest, rest_position_add, rest_advance.
      change (rest l0) with (ws ++ HASH :: body).
      rewrite skipn_app, skipn_all, Nat.sub_diag.
      cbn [app skipn]. now rewrite skipn_all.
Qed.

Lemma blank_and_comment_input_witness :
  Forall blank (str "  ") /\ ~ In NL (str " to do") /\
  returned (@lex latin1 (str "  ")) =
    Some [Token.mk EOF PyNone 1 (1 + Z.of_nat (List.length (str "  ")))] /\
  returned (@lex latin1 (str "  " ++ HASH :: str " to do")) =
    Some [Token.mk EOF PyNone 1 (1 + Z.of_nat (List.length (str "  ")))].
Proof.
  assert (H1 : Forall blank (str "  "))
    by (repeat constructor; left; reflexivity).
  assert (H2 : ~ In NL (str " to do"))
    by (simpl; intros H; repeat (destruct H as [H|H]; [discriminate H|]);
        exact H).
  split; [exact H1|]. split; [exact H2|].
  exact (@blank_and_comment_input latin1 (str "  ") (str " to do") H1 H2).
Defined.

Lemma firstn_plus {A : Type} (n m : nat) (s : list A) :
  firstn (n + m) s = firstn n s ++ firstn m (skipn n s).
Proof.
  revert s; induction n as [|n IH]; intros [|a s]; simpl; auto.
  - now rewrite firstn_nil.
  - now rewrite IH.
Qed.

Lemma slice_app (s : list char) (a b c : nat) :
  a <= b -> b <= c -> slice s a c = slice s a b ++ slice s b c.
Proof.
  intros Hab Hbc. unfold slice.
  replace (c - a) with ((b - a) + (c - b)) by lia.
  rewrite firstn_plus, skipn_skipn.
  replace (b - a + a) with b by lia. reflexivity.
Qed.

Lemma slice_empty (s : list char) (a : nat) : slice s a a = [].
Proof. unfold slice. now rewrite Nat.sub_diag. Qed.

Lemma skip_loop_no_newline (fuel : nat) (l : Lexer) :
  ~ In NL (slice (source l) (position l) (position (skip_loop fuel l))).
Proof.
  revert l; induction fuel as [|fuel IH]; intros l; simpl.
  - now rewrite slice_empty.
  - destruct (current l) as [c|] eqn:Hc; [|now rewrite slice_empty].
    destruct (char_eqb c SPACE || (char_eqb c TAB || false)) eqn:Hw.
    + set (l1 := column_add 1 (position_add 1 l)).
      pose proof (follows_position (follows_skip_loop scanned fuel l1))
        as Hpos.
      specialize (IH l1). simpl in Hpos, IH.
      rewrite (@slice_app _ _ (position l + 1)) by lia.
      rewrite slice_rest, (rest_current _ Hc). simpl firstn.
      intros [H|H]; [|contradiction].
      subst c. discriminate Hw.
    + destruct (char_eqb c HASH); [|now rewrite slice_empty].
      rewrite (skip_comment_run l (le_n _)).
      set (k := List.length (run (fun c => negb (char_eqb c NL)) (rest l))).
      set (l1 := position_add k l).
      pose proof (follows_position (follows_skip_loop scanned fuel l1))
        as Hpos.
      specialize (IH l1). simpl in Hpos, IH.
      rewrite (@slice_app _ _ (position l + k)) by lia.
      unfold k at 1. rewrite slice_run.
      intros H. apply in_app_or in H as [H|H]; [|contradiction].
      pose proof (run_Forall (fun c => negb (char_eqb c NL)) (rest l)) as F.
      rewrite Forall_forall in F. specialize (F _ H). discriminate F.
Qed.

(** X12.  Skipping blanks and comments changes nothing but the position and
    the column: it appends no token, logs nothing and leaves the line
    counter alone; it never moves the cursor over a newline character, so a
    comment ends before the newline that follows it; and it stops only at
    the end of the input or at a character that is no space, no tab and no
    [#]. *)
Theorem skip_keeps_newlines (l : Lexer) :
  let l' := _skip_whitespace_and_comments l in
  source l' = source l /\ line l' = line l /\ tokens l' = tokens l /\
  logged l' = logged l /\ indent_stack l' = indent_stack l /\
  position l <= position l' /\
  ~ In NL (slice (source l) (position l) (position l')) /\
  match current l' with
  | Some c => char_in c [SPACE; TAB] = false /\ char_eqb c HASH = false
  | None => True
  end.
Proof.
  cbv zeta.
  pose proof (follows_skip_whitespace_and_comments (fun _ => False) l) as F.
  pose proof (follows_nothing F) as Ht.
  destruct F as [Hs Hk Hp _].
  destruct (moves_skip_whitespace_and_comments l)
    as [_ Hl _ _ _ (ws & Hlog & Hws)].
  repeat split; auto.
  - assert (E : forall fuel l0, logged (skip_loop fuel l0) = logged l0).
    { induction fuel as [|fuel IH]; intros l0; simpl; auto.
      destruct (current l0) as [c|]; auto.
      destruct (char_eqb c SPACE || (char_eqb c TAB || false));
        [now rewrite IH|].
      destruct (char_eqb c HASH); auto.
      rewrite IH. clear IH.
      generalize (remaining l0). intros n; revert l0.
      induction n as [|n IHn]; intros l0; simpl; auto.
      destruct (current l0) as [d|]; auto.
      destruct (negb (char_eqb d NL)); auto.
      now rewrite IHn. }
    apply E.
  - apply skip_loop_no_newline.
  - apply skip_loop_exit, le_n.
Qed.

(** ** The reserved words *)

Lemma dict_get_absent (d : list (list char * TokenType)) (key : list char)
  (default : TokenType) :
  ~ In key (map fst d) -> dict_get d key default = default.
Proof.
  induction d as [|[k v] d IH]; simpl; auto.
  intros H. destruct (text_eqb k key) eqn:E.
  - apply text_eqb_eq in E. elim H. now left.
  - apply IH. intros Hin. apply H. now right.
Qed.

(** X13.  The reserved-word table is exact: each of its seventeen words,
    alone as input, gives one token of the kind the table names, with the
    word as value; and a word of identifier characters that starts with an
    ASCII letter and is not literally one of the seventeen gives one
    Identifier token. *)
Theorem reserved_words_exact (U : Host) (UL : HostLaws U) :
  (forall w ty,
     In (w, ty) KEYWORDS ->
     returned (lex w) =
     Some [Token.mk ty (PyStr w) 1 (1 + Z.of_nat (List.length w));
           Token.mk EOF PyNone 1 (1 + Z.of_nat (List.length w))]) /\
  (forall (c : char) (w : list char),
     (c < 128)%N -> ascii_isalpha c = true ->
     forallb identifier_char (c :: w) = true ->
     ~ In (c :: w) (map fst KEYWORDS) ->
     returned (lex (c :: w)) =
     Some [Token.mk IDENTIFIER (PyStr (c :: w)) 1
                    (1 + Z.of_nat (List.length (c :: w)));
           Token.mk EOF PyNone 1 (1 + Z.of_nat (List.length (c :: w)))]).
Proof.
  split.
  - intros w ty Hin. cbv in Hin.
    repeat (destruct Hin as [Hin|Hin];
            [ injection Hin as <- <-;
              rewrite lex_word;
              [ reflexivity | reflexivity | reflexivity
              | simpl; unfold identifier_char; ascii_laws; reflexivity ]
            | ]).
    contradiction.
  - intros c w Hc Ha Hw Hnot.
    rewrite (@lex_word U UL c w Hc Ha Hw).
    now rewrite (@dict_get_absent KEYWORDS (c :: w) IDENTIFIER Hnot).
Qed.

Lemma reserved_words_exact_witness :
  In (str "lambda", LAMBDA) KEYWORDS /\
  returned (@lex latin1 (str "lambda")) =
  Some [Token.mk LAMBDA (PyStr (str "lambda")) 1
                 (1 + Z.of_nat (List.length (str "lambda")));
        Token.mk EOF PyNone 1 (1 + Z.of_nat (List.length (str "lambda")))].
Proof.
  assert (H : In (str "lambda", LAMBDA) KEYWORDS)
    by (unfold KEYWORDS; simpl; auto 20).
  split; [exact H|].
  exact (proj1 (@reserved_words_exact latin1 latin1_laws) _ _ H).
Defined.

(** ** Numeric literals in ASCII *)

Section AsciiNumbers.
Context {U : Host} {UL : HostLaws U}.

Lemma ascii_digit_char (c : char) :
  (c < 128)%N -> ascii_isdigit c = true ->
  isdigit c = true /\ decimal c = Some (Z.of_N c - 48)%Z /\
  char_eqb c NL = false /\ char_in c [SPACE; TAB] = false /\
  char_eqb c HASH = false /\ char_eqb c DOT_CHAR = false /\
  (0 <= Z.of_N c - 48 <= 9)%Z.
Proof.
  intros Hc Hd.
  rewrite (isdigit_ascii Hc), (decimal_ascii Hc), Hd.
  unfold ascii_isdigit in Hd. apply andb_true_iff in Hd as [H1 H2].
  apply N.leb_le in H1, H2.
  unfold char_in, existsb, char_eqb.
  repeat split; try lia;
    rewrite ?orb_false_r;
    repeat (apply orb_false_iff; split);
    try (apply N.eqb_neq; unfold NL, SPACE, TAB, HASH, DOT_CHAR; simpl; lia).
Qed.

Lemma ascii_digits_run (digits : list char) :
  ascii_digits digits ->
  forallb isdigit digits = true /\
  Forall (fun c => isdigit c = true) digits /\
  forall acc,
    decimal_value acc digits =
    Some (fold_left (fun a c => (10 * a + (Z.of_N c - 48))%Z) digits acc).
Proof.
  induction 1 as [|c digits [Hc Hd] _ (IH1 & IH2 & IH3)]; simpl; auto.
  destruct (ascii_digit_char Hc Hd) as (Hdig & Hdec & _).
  rewrite Hdig, Hdec. repeat split; auto.
Qed.

Lemma numeral_nonnegative (digits : list char) :
  ascii_digits digits -> (0 <= numeral digits)%Z.
Proof.
  unfold numeral. intros H.
  assert (G : forall acc, (0 <= acc)%Z ->
    (0 <= fold_left (fun a c => (10 * a + (Z.of_N c - 48))%Z) digits acc)%Z).
  { induction H as [|c digits [Hc Hd] _ IH]; cbn [fold_left]; auto.
    intros acc Hacc. apply IH.
    destruct (ascii_digit_char Hc Hd) as (_ & _ & _ & _ & _ & _ & Hr).
    lia. }
  apply G. lia.
Qed.

Lemma run_stop (p : char -> bool) (digits : list char) (c : char)
  (tail : list char) :
  forallb p digits = true -> p c = false ->
  run p (digits ++ c :: tail) = digits.
Proof.
  induction digits as [|d digits IH]; simpl; intros Hd Hc.
  - now rewrite Hc.
  - apply andb_true_iff in Hd as [H1 H2]. rewrite H1. now rewrite IH.
Qed.
End AsciiNumbers.

(** X14.  A nonempty string of ASCII digits that is within the
    interpreter's limit, alone as input, gives one Integer token whose value
    is the number the digits denote in base ten, leading zeros allowed;
    the value is never negative. *)
Theorem ascii_integer_literal (U : Host) (UL : HostLaws U)
  (digits : list char) :
  digits <> [] -> ascii_digits digits -> within_int_limit digits ->
  returned (lex digits) =
    Some [Token.mk INTEGER (PyInt (numeral digits)) 1
                   (1 + Z.of_nat (List.length digits));
          Token.mk EOF PyNone 1 (1 + Z.of_nat (List.length digits))] /\
  (0 <= numeral digits)%Z.
Proof.
  intros Hne Hd Hlim. split; [|now apply numeral_nonnegative].
  destruct digits as [|c digits]; [contradiction|].
  pose proof Hd as Hall. inversion Hd as [|? ? [Hc Hdc] Hrest]; subst.
  destruct (ascii_digit_char Hc Hdc) as (Hdig & _ & Hn & Hw & Hh & _).
  destruct (ascii_digits_run Hall) as (Hrun & _ & Hval).
  set (l0 := logger_emit (DebugTokenizing (List.length (c :: digits)))
                         (init (c :: digits))).
  assert (Hnum : _read_number l0 =
                 Normal (_add_token INTEGER (PyInt (numeral (c :: digits)))
                           (advance (List.length (c :: digits)) l0))).
  { apply read_number_integer.
    - change (rest l0) with (c :: digits). now apply run_all.
    - change (rest l0) with (c :: digits). now rewrite skipn_all.
    - unfold py_int.
      replace ((0 <? int_max_str_digits)
               && (int_max_str_digits <? List.length (c :: digits)))
        with false; [apply Hval|].
      symmetry. destruct Hlim as [H0|Hle].
      + now rewrite H0.
      + apply andb_false_iff. right. apply Nat.ltb_ge. lia. }
  rewrite (@lex_single U (c :: digits) c
             (_add_token INTEGER (PyInt (numeral (c :: digits)))
                (advance (List.length (c :: digits)) l0))).
  - reflexivity.
  - reflexivity.
  - exact Hw.
  - exact Hh.
  - fold l0. unfold dispatch. rewrite Hn, Hdig. exact Hnum.
  - fold l0. unfold current. apply nth_error_None. simpl. lia.
Qed.

Lemma ascii_integer_literal_witness :
  str "007" <> [] /\ ascii_digits (str "007") /\
  @within_int_limit latin1 (str "007") /\
  returned (@lex latin1 (str "007")) =
    Some [Token.mk INTEGER (PyInt (numeral (str "007"))) 1
                   (1 + Z.of_nat (List.length (str "007")));
          Token.mk EOF PyNone 1 (1 + Z.of_nat (List.length (str "007")))] /\
  (0 <= numeral (str "007"))%Z.
Proof.
  assert (H1 : str "007" <> []) by discriminate.
  assert (H2 : ascii_digits (str "007"))
    by (repeat constructor).
  assert (H3 : @within_int_limit latin1 (str "007"))
    by (right; apply Nat.leb_le; vm_compute; reflexivity).
  split; [exact H1|]. split; [exact H2|]. split; [exact H3|].
  exact (@ascii_integer_literal latin1 latin1_laws (str "007") H1 H2 H3).
Defined.

(** X15.  ASCII digits, a dot and ASCII digits (possibly none after the
    dot), alone as input, give one Float token whose value is the binary64
    number nearest to the decimal the text denotes; the dot belongs to the
    number even when no digit follows it. *)
Theorem ascii_float_literal (U : Host) (UL : HostLaws U)
  (whole fraction : list char) :
  whole <> [] -> ascii_digits whole -> ascii_digits fraction ->
  returned (lex (whole ++ DOT_CHAR :: fraction)) =
  let column :=
    (1 + Z.of_nat (List.length (whole ++ DOT_CHAR :: fraction)))%Z in
  Some [Token.mk FLOAT
          (PyFloat (nearest_binary64 (numeral (whole ++ fraction))
                                     (List.length fraction)))
          1 column;
        Token.mk EOF PyNone 1 column].
Proof.
  intros Hne Hw Hf. cbv zeta.
  destruct whole as [|c whole]; [contradiction|].
  pose proof Hw as Hall. inversion Hw as [|? ? [Hc Hdc] Hrest]; subst.
  destruct (ascii_digit_char Hc Hdc) as (Hdig & _ & Hn & Hws & Hh & _).
  destruct (ascii_digits_run Hall) as (Hrun & Hforall & _).
  destruct (ascii_digits_run Hf) as (Hrunf & _ & _).
  assert (Hboth : ascii_digits ((c :: whole) ++ fraction))
    by (apply Forall_app; split; assumption).
  destruct (ascii_digits_run Hboth) as (_ & _ & Hval).
  set (src := (c :: whole) ++ DOT_CHAR :: fraction).
  set (l0 := logger_emit (DebugTokenizing (List.length src)) (init src)).
  assert (Hdot : isdigit DOT_CHAR = false)
    by (rewrite isdigit_ascii by reflexivity; reflexivity).
  assert (Hnum :
    _read_number l0 =
    Normal (_add_token FLOAT
              (PyFloat (nearest_binary64 (numeral ((c :: whole) ++ fraction))
                                         (List.length fraction)))
              (advance (List.length (c :: whole) + 1 + List.length fraction)
                       l0))).
  { apply read_number_float with (after := fraction).
    - change (rest l0) with ((c :: whole) ++ DOT_CHAR :: fraction).
      now apply run_stop.
    - change (rest l0) with ((c :: whole) ++ DOT_CHAR :: fraction).
      rewrite skipn_app, skipn_all, Nat.sub_diag. reflexivity.
    - now apply run_all.
    - unfold py_float. rewrite (split_dot_digits fraction Hforall).
      cbn [app].
      change (c :: whole ++ fraction) with ((c :: whole) ++ fraction).
      rewrite Hval. reflexivity. }
  rewrite (@lex_single U src c
             (_add_token FLOAT
                (PyFloat (nearest_binary64
                            (numeral ((c :: whole) ++ fraction))
                            (List.length fraction)))
                (advance (List.length (c :: whole) + 1
                          + List.length fraction) l0))).
  - unfold l0.
    cbn [tokens _add_token tokens_append advance column_add position_add
         logger_emit init line column app].
    unfold src. rewrite !length_app. cbn [List.length].
    replace (S (List.length whole) + 1 + List.length fraction)
      with (S (List.length whole) + S (List.length fraction)) by lia.
    reflexivity.
  - reflexivity.
  - exact Hws.
  - exact Hh.
  - fold l0. unfold dispatch. rewrite Hn, Hdig. exact Hnum.
  - fold l0. unfold current. apply nth_error_None.
    unfold l0.
    cbn [source position _add_token tokens_append advance column_add
         position_add logger_emit init].
    unfold src. rewrite !length_app. cbn [List.length]. lia.
Qed.

Lemma ascii_float_literal_witness :
  str "3" <> [] /\ ascii_digits (str "3") /\ ascii_digits (str "14") /\
  returned (@lex latin1 (str "3" ++ DOT_CHAR :: str "14")) =
  let column :=
    (1 + Z.of_nat (List.length (str "3" ++ DOT_CHAR :: str "14")))%Z in
  Some [Token.mk FLOAT
          (PyFloat (nearest_binary64 (numeral (str "3" ++ str "14"))
                                     (List.length (str "14"))))
          1 column;
        Token.mk EOF PyNone 1 column].
Proof.
  assert (H1 : str "3" <> []) by discriminate.
  assert (H2 : ascii_digits (str "3")) by (repeat constructor).
  assert (H3 : ascii_digits (str "14")) by (repeat constructor).
  split; [exact H1|]. split; [exact H2|]. split; [exact H3|].
  exact (@ascii_float_literal latin1 latin1_laws (str "3") (str "14")
           H1 H2 H3).
Defined.

(** ** What is logged *)

Lemma skip_logged (l : Lexer) :
  logged (_skip_whitespace_and_comments l) = logged l.
Proof.
  unfold _skip_whitespace_and_comments. generalize (remaining l) at 1.
  intros fuel; revert l.
  induction fuel as [|fuel IH]; intros l; simpl; auto.
  destruct (current l) as [c|]; auto.
  destruct (char_eqb c SPACE || (char_eqb c TAB || false));
    [now rewrite IH|].
  destruct (char_eqb c HASH); auto.
  rewrite IH. clear IH.
  generalize (remaining l). intros n; revert l.
  induction n as [|n IHn]; intros l; simpl; auto.
  destruct (current l) as [d|]; auto.
  destruct (negb (char_eqb d NL)); auto.
  now rewrite IHn.
Qed.

Lemma char_in_false (c : char) (text : list char) :
  ~ In c text -> char_in c text = false.
Proof.
  unfold char_in. induction text as [|d text IH]; simpl; auto.
  intros H. apply orb_false_iff. split.
  - apply N.eqb_neq. intros ->. apply H. now left.
  - apply IH. intros Hin. apply H. now right.
Qed.

Section Logged.
Context {U : Host} {UL : HostLaws U}.

(** One branch of the main loop appends a token or logs a warning, not
    both, and the warning is about the current character. *)
Lemma dispatch_reports (c : char) (l : Lexer) :
  current l = Some c ->
  char_in c [SPACE; TAB] = false -> char_eqb c HASH = false ->
  exists ws,
    logged (state_of (dispatch c l)) = logged l ++ ws /\
    Forall (reported (source l)) ws /\
    List.length (tokens (state_of (dispatch c l))) + List.length ws <=
    S (List.length (tokens l)).
Proof.
  intros Hc Hblank Hhash.
  destruct (char_eqb c NL) eqn:Hn.
  { unfold dispatch. rewrite Hn. exists []. simpl.
    rewrite app_nil_r, length_app. simpl. split; [reflexivity|].
    split; [constructor|lia]. }
  destruct (isdigit c) eqn:Hd.
  { unfold dispatch. rewrite Hn, Hd. exists [].
    rewrite read_number_spec; cbv zeta.
    destruct (rest (advance _ l)) as [|d after].
    - destruct (py_int _); simpl; rewrite ?length_app, app_nil_r; simpl;
        (split; [reflexivity|split; [constructor|lia]]).
    - destruct (char_eqb d DOT_CHAR).
      + destruct (py_float _); simpl; rewrite ?length_app, app_nil_r; simpl;
          (split; [reflexivity|split; [constructor|lia]]).
      + destruct (py_int _); simpl; rewrite ?length_app, app_nil_r; simpl;
          (split; [reflexivity|split; [constructor|lia]]). }
  destruct (isalpha c || char_eqb c (chr "_")) eqn:Ha.
  { unfold dispatch. rewrite Hn, Hd, Ha. exists [].
    rewrite read_identifier_run; cbv zeta. simpl.
    rewrite length_app, app_nil_r. simpl.
    split; [reflexivity|split; [constructor|lia]]. }
  destruct (char_eqb c DQUOTE || char_eqb c SQUOTE) eqn:Hq.
  { unfold dispatch. rewrite Hn, Hd, Ha, Hq. exists [].
    rewrite read_string_spec; cbv zeta.
    destruct (current (advance _ l)); simpl;
      rewrite length_app, app_nil_r; simpl;
      (split; [reflexivity|split; [constructor|lia]]). }
  destruct (@dispatch_cases U c l Hn Hd Ha Hq)
    as [(ty & Hin & ->)|[Hp ->]].
  { exists []. simpl. rewrite length_app, app_nil_r. simpl.
    split; [reflexivity|split; [constructor|lia]]. }
  destruct (read_operator_cases _ Hc)
    as (l' & -> & [(op & ty & _ & _ & _ & ->)|[(ty & _ & ->)|[Hone ->]]]).
  - exists []. simpl. rewrite length_app, app_nil_r. simpl.
    split; [reflexivity|split; [constructor|lia]].
  - exists []. simpl. rewrite length_app, app_nil_r. simpl.
    split; [reflexivity|split; [constructor|lia]].
  - exists [WarningUnknownCharacter c (line l) (column l)]. simpl.
    split; [reflexivity|]. split; [|lia].
    constructor; [|constructor]. split.
    + unfold current in Hc. now apply nth_error_In in Hc.
    + unfold unrecognised.
      rewrite Hn, Hblank, Hhash, Hd, Ha, Hq.
      rewrite (char_in_false _ _ Hp), (char_in_false _ _ Hone).
      reflexivity.
Qed.

Lemma noted_iteration (src : list char) (l : Lexer) :
  noted src l -> noted src (state_of_control (iteration l)).
Proof.
  intros [Hsrc (ws & Hlog & Hws & Hcount)].
  unfold iteration; cbv zeta.
  pose proof (follows_skip_whitespace_and_comments (fun _ => False) l)
    as Fs.
  pose proof (follows_nothing Fs) as Ht.
  destruct Fs as [Hs1 _ Hpos _].
  pose proof (skip_logged l) as Hl1.
  pose proof (skip_loop_exit l (le_n _)) as Hexit.
  fold (_skip_whitespace_and_comments l) in Hexit.
  set (l1 := _skip_whitespace_and_comments l) in *.
  destruct (current l1) as [c|] eqn:Hc.
  - destruct Hexit as [Hblank Hhash].
    destruct (dispatch_reports l1 Hc Hblank Hhash) as (new & Hl2 & Hnew & Hn).
    pose proof (dispatch_progress _ Hc) as Hprog.
    pose proof (follows_source (follows_dispatch c l1)) as Hs2.
    assert (Hlt : position l1 < List.length (source l1))
      by (apply nth_error_Some; unfold current in Hc; congruence).
    assert (Hgoal : noted src (state_of (dispatch c l1))).
    { split; [congruence|].
      exists (ws ++ new). split; [|split].
      - rewrite Hl2, Hl1, Hlog. reflexivity.
      - apply Forall_app. split; [exact Hws|].
        rewrite Hs1, Hsrc in Hnew. exact Hnew.
      - rewrite length_app. rewrite Ht in Hn. rewrite Hs1, Hsrc in Hlt.
        lia. }
    destruct (dispatch c l1); exact Hgoal.
  - cbn [state_of_control]. split; [congruence|].
    exists ws. split; [congruence|]. split; [exact Hws|].
    rewrite Ht. lia.
Qed.

Lemma noted_tokenize_loop (src : list char) (fuel : nat) (l : Lexer)
  (c : completion) :
  noted src l -> tokenize_loop fuel l = Some c -> noted src (state_of c).
Proof.
  revert l; induction fuel as [|fuel IH]; intros l Hp; simpl.
  - destruct (current l); [discriminate|].
    intros H; injection H as <-. exact Hp.
  - destruct (current l); [|intros H; injection H as <-; exact Hp].
    pose proof (noted_iteration Hp) as Hi.
    destruct (iteration l) as [l'|l'|e l']; simpl in Hi.
    + now apply IH.
    + intros H; injection H as <-. exact Hi.
    + intros H; injection H as <-. exact Hi.
Qed.
End Logged.

(** X16.  What a run of [tokenize] on a new lexer logs: first the number of
    characters of the source, then nothing but warnings, each about a
    character of the source that no branch recognises, and last, when the
    run returns, the number of tokens returned; a run that raises logs no
    such last record.  Tokens (the end marker included) and warnings
    together are at most one more than the characters of the source: no
    character gives both. *)
Theorem log_of_a_run (U : Host) (UL : HostLaws U) (src : list char)
  (c : completion) :
  lex src = Some c ->
  exists ws,
    logged (state_of c) =
      DebugTokenizing (List.length src) :: ws ++
      match c with
      | Normal l => [DebugTokenized (List.length (tokens l))]
      | Raised _ _ => []
      end /\
    Forall (reported src) ws /\
    List.length (tokens (state_of c)) + List.length ws <=
    List.length src + 1.
Proof.
  unfold lex, tokenize; cbv zeta.
  set (l0 := logger_emit _ (init src)).
  assert (H0 : noted src l0).
  { split; [reflexivity|]. exists []. simpl.
    split; [reflexivity|]. split; [constructor|lia]. }
  destruct (tokenize_loop (remaining l0) l0) as [[l1|e l1]|] eqn:H;
    [| |discriminate].
  - apply (noted_tokenize_loop _ H0) in H.
    destruct H as [_ (ws & Hlog & Hws & Hcount)]. cbn [state_of] in *.
    intros E; injection E as <-. exists ws.
    cbn [state_of logged logger_emit _add_token tokens_append tokens].
    rewrite Hlog, length_app. cbn [List.length].
    split; [reflexivity|]. split; [exact Hws|]. lia.
  - apply (noted_tokenize_loop _ H0) in H.
    destruct H as [_ (ws & Hlog & Hws & Hcount)]. cbn [state_of] in *.
    intros E; injection E as <-. exists ws.
    cbn [state_of]. rewrite Hlog, app_nil_r.
    split; [reflexivity|]. split; [exact Hws|]. lia.
Qed.

Lemma log_of_a_run_witness :
  @lex latin1 (str "a@") =
    Some (Normal (mkLexer (str "a@") 2 1 3
                    [Token.mk IDENTIFIER (PyStr (str "a")) 1 2;
                     Token.mk EOF PyNone 1 3]
                    [0%Z]
                    [DebugTokenizing 2;
                     WarningUnknownCharacter (chr "@") 1 2;
                     DebugTokenized 2])) /\
  exists ws,
    [DebugTokenizing 2; WarningUnknownCharacter (chr "@") 1 2;
     DebugTokenized 2] =
      DebugTokenizing (List.length (str "a@")) :: ws ++ [DebugTokenized 2] /\
    Forall (@reported latin1 (str "a@")) ws /\
    2 + List.length ws <= List.length (str "a@") + 1.
Proof.
  assert (H : @lex latin1 (str "a@") =
    Some (Normal (mkLexer (str "a@") 2 1 3
                    [Token.mk IDENTIFIER (PyStr (str "a")) 1 2;
                     Token.mk EOF PyNone 1 3]
                    [0%Z]
                    [DebugTokenizing 2;
                     WarningUnknownCharacter (chr "@") 1 2;
                     DebugTokenized 2])))
    by (vm_compute; reflexivity).
  split; [exact H|].
  exact (@log_of_a_run latin1 latin1_laws (str "a@") _ H).
Defined.

(** ** Input the lexer has no rule for *)

Section Unrecognised.
Context {U : Host}.

Lemma unrecognised_parts (c : char) :
  unrecognised c = true ->
  char_eqb c NL = false /\
  char_in c [SPACE; TAB] = false /\ char_eqb c HASH = false /\
  isdigit c = false /\ isalpha c || char_eqb c (chr "_") = false /\
  char_eqb c DQUOTE || char_eqb c SQUOTE = false /\
  char_in c (map fst punctuation) = false /\
  char_in c (map fst one_char_operators) = false.
Proof.
  unfold unrecognised. rewrite !andb_true_iff, !negb_true_iff. tauto.
Qed.

Lemma char_in_In (c : char) (text : list char) :
  char_in c text = false -> ~ In c text.
Proof.
  unfold char_in. induction text as [|d text IH]; simpl; auto.
  intros H. apply orb_false_iff in H as [H1 H2].
  intros [->|Hin]; [|now apply IH].
  unfold char_eqb in H1. rewrite N.eqb_refl in H1. discriminate.
Qed.

(** No two-character operator starts at an unrecognised character that is
    followed by another or by nothing. *)
Lemma unrecognised_no_operator (l : Lexer) (c : char) (tail : list char) :
  rest l = c :: tail -> forallb unrecognised (c :: tail) = true ->
  two_char_operator l = None.
Proof.
  intros Hrest Hall.
  destruct (two_char_operator l) as [l'|] eqn:E; [exfalso|reflexivity].
  apply two_char_operator_cases in E
    as (op & ty & Hin & _ & Hslice & _).
  unfold slice in Hslice. fold (rest l) in Hslice.
  replace (position l + 2 - position l) with 2 in Hslice by lia.
  rewrite Hrest in Hslice.
  cbn [forallb] in Hall. apply andb_true_iff in Hall as [Hc Htail].
  apply unrecognised_parts in Hc
    as (_ & _ & _ & _ & _ & _ & _ & Hone).
  destruct tail as [|d tail].
  - cbn [firstn] in Hslice. subst op.
    repeat (destruct Hin as [Hin|Hin]; [discriminate Hin|]).
    exact Hin.
  - cbn [firstn] in Hslice. subst op.
    cbn [forallb] in Htail. apply andb_true_iff in Htail as [Hd _].
    apply unrecognised_parts in Hd
      as (_ & _ & _ & _ & _ & _ & _ & Hdone).
    vm_compute in Hin.
    repeat (destruct Hin as [Hin|Hin];
            [inversion Hin; subst c d;
             vm_compute in Hone; vm_compute in Hdone;
             first [discriminate Hone|discriminate Hdone]|]).
    exact Hin.
Qed.

(** One pass through the main loop at such a character: the warning, and
    the cursor one further. *)
Lemma unrecognised_step (l : Lexer) (c : char) (tail : list char) :
  rest l = c :: tail -> forallb unrecognised (c :: tail) = true ->
  iteration l =
  Continue (advance 1
              (logger_emit (WarningUnknownCharacter c (line l) (column l))
                           l)).
Proof.
  intros Hrest Hall.
  pose proof (unrecognised_no_operator l Hrest Hall) as Htwo.
  pose proof (current_head l Hrest) as Hc.
  cbn [forallb] in Hall. apply andb_true_iff in Hall as [Hu _].
  apply unrecognised_parts in Hu
    as (Hn & Hblank & Hhash & Hd & Ha & Hq & Hp & Hone).
  assert (Hskip : _skip_whitespace_and_comments l = l).
  { unfold _skip_whitespace_and_comments.
    rewrite (remaining_current _ Hc). cbn [skip_loop]. rewrite Hc.
    change (char_eqb c SPACE || (char_eqb c TAB || false))
      with (char_in c [SPACE; TAB]).
    now rewrite Hblank, Hhash. }
  unfold iteration; cbv zeta. rewrite Hskip, Hc.
  destruct (@dispatch_cases U c l Hn Hd Ha Hq)
    as [(ty & Hin & _)|[_ ->]].
  - apply char_in_In in Hp. elim Hp.
    change c with (fst (c, ty)). now apply in_map.
  - rewrite (@unknown_character_skipped l c Hc Htwo (char_in_In _ _ Hone)).
    reflexivity.
Qed.

Lemma unrecognised_loop (text : list char) (fuel : nat) (l : Lexer) :
  rest l = text -> forallb unrecognised text = true ->
  List.length text <= fuel ->
  exists l',
    tokenize_loop fuel l = Some (Normal l') /\
    tokens l' = tokens l /\ line l' = line l /\
    column l' = (column l + Z.of_nat (List.length text))%Z /\
    logged l' = logged l ++ warnings (line l) (column l) text.
Proof.
  revert fuel l; induction text as [|c text IH]; intros fuel l Hrest Hall Hfuel.
  - exists l. assert (Hc : current l = None) by now rewrite current_rest, Hrest.
    split; [destruct fuel; simpl; now rewrite Hc|].
    cbn [List.length warnings]. rewrite app_nil_r, Z.add_0_r. auto.
  - destruct fuel as [|fuel]; [simpl in Hfuel; lia|].
    cbn [tokenize_loop]. rewrite (current_head l Hrest).
    rewrite (unrecognised_step l Hrest Hall).
    set (l1 := advance 1 (logger_emit _ l)).
    assert (H1 : rest l1 = text).
    { unfold l1. rewrite rest_advance.
      change (rest (logger_emit
                      (WarningUnknownCharacter c (line l) (column l)) l))
        with (rest l).
      now rewrite Hrest. }
    cbn [forallb] in Hall. apply andb_true_iff in Hall as [_ Htail].
    destruct (IH fuel l1 H1 Htail) as (l' & Hrun & Ht & Hl & Hcol & Hlog);
      [simpl in Hfuel; lia|].
    exists l'. split; [exact Hrun|].
    rewrite Ht, Hl, Hcol, Hlog. unfold l1.
    cbn [tokens line column logged advance column_add position_add
         logger_emit warnings List.length].
    rewrite <- app_assoc. cbn [app].
    repeat split; lia.
Qed.
End Unrecognised.

(** X17.  An input made only of characters the lexer has no rule for (such
    as [@], [$], [?], [~], a backslash, or [!] not before [=]) gives the end
    marker alone, at the column one past the input, and one warning for each
    character, in order, at line 1 and the character's column. *)
Theorem unrecognised_input (U : Host) (src : list char) :
  forallb unrecognised src = true ->
  exists l,
    lex src = Some (Normal l) /\
    tokens l = [Token.mk EOF PyNone 1 (1 + Z.of_nat (List.length src))] /\
    logged l =
      DebugTokenizing (List.length src) :: warnings 1 1 src ++
      [DebugTokenized 1].
Proof.
  intros Hall. unfold lex, tokenize; cbv zeta.
  set (l0 := logger_emit _ (init src)).
  destruct (@unrecognised_loop U src (remaining l0) l0)
    as (l1 & -> & Ht & Hl & Hcol & Hlog);
    [reflexivity|exact Hall|unfold l0; rewrite remaining_rest; apply le_n|].
  eexists. split; [reflexivity|].
  cbn [tokens logged logger_emit _add_token tokens_append].
  rewrite Ht, Hl, Hcol, Hlog. split; reflexivity.
Qed.

Lemma unrecognised_input_witness :
  forallb (@unrecognised latin1) (str "@!$") = true /\
  exists l,
    @lex latin1 (str "@!$") = Some (Normal l) /\
    tokens l =
      [Token.mk EOF PyNone 1 (1 + Z.of_nat (List.length (str "@!$")))] /\
    logged l =
      DebugTokenizing (List.length (str "@!$")) ::
      warnings 1 1 (str "@!$") ++ [DebugTokenized 1].
Proof.
  assert (H : forallb (@unrecognised latin1) (str "@!$") = true)
    by (vm_compute; reflexivity).
  split; [exact H|].
  exact (@unrecognised_input latin1 (str "@!$") H).
Defined.

(** ** Punctuation and one-character operators *)


